(** * The OSRM graph loader ([include/util/graph_loader.hpp])

    A shallow embedding of the three loaders of [osrm::util]

      - [loadRestrictionsFromFile]
      - [loadNodesFromFile]
      - [loadEdgesFromFile]

    and the properties of them that the specification states.

    Conventions of the embedding.

    - Bytes are [Byte.byte]; a stream is the list of bytes still to be
      extracted together with its [failbit] and its exception mask.
    - [unsigned], [NodeID] and [EdgeID] are 32-bit and decoded the way an
      x86-64 build does ([reinterpret_cast] of four bytes, little endian);
      [std::size_t] is 64-bit and its multiplication wraps.
    - The structs that are read with [reinterpret_cast] are declared in
      headers that are not among the sources ([extractor/], [util/fingerprint.hpp]).
      Their fields are the ones the loaders use; their size and object
      representation are parameters, collected in the class [Layout].
    - The loaders mutate containers that the caller passes by reference.
      They live in a record [world]; a loader is a function from a [world]
      to an outcome, the final [world] and the lines it logged.
    - An outcome is a normal return, a C++ exception that leaves the
      function, an abort raised by a failed [BOOST_ASSERT], or undefined
      behaviour (an indeterminate local is read). *)

From Stdlib Require Import String ZArith List Bool Lia.
From Stdlib.Strings Require Import Byte.
From Stdlib Require Import Permutation Sorted.
Import ListNotations.

Local Open Scope Z_scope.

(** ** Integers of the platform *)

Module Platform.

Definition byte_to_Z (b : byte) : Z := Z.of_N (Byte.to_N b).

Definition byte_of_Z (z : Z) : byte :=
  match Byte.of_N (Z.to_N (z mod 256)) with
  | Some b => b
  | None => x00
  end.

(** The value of a little-endian sequence of bytes. *)
Fixpoint le_decode (bs : list byte) : Z :=
  match bs with
  | [] => 0
  | b :: bs' => byte_to_Z b + 256 * le_decode bs'
  end.

(** The [k] little-endian bytes of [z]. *)
Fixpoint le_encode (k : nat) (z : Z) : list byte :=
  match k with
  | O => []
  | S k' => byte_of_Z z :: le_encode k' (z / 256)
  end.

(** Two's complement reading of a 32-bit pattern. *)
Definition to_int32 (z : Z) : Z :=
  if z <? 2 ^ 31 then z else z - 2 ^ 32.

(** [sizeof(unsigned)], [sizeof(NodeID)], [sizeof(EdgeID)]. *)
Definition sizeof_unsigned : nat := 4.

(** [a * b] in [std::size_t]. *)
Definition size_t_mul (a b : Z) : Z := (a * b) mod 2 ^ 64.

End Platform.
Import Platform.

(** ** Trivially copyable objects

    [sizeof T], the view of [sizeof T] bytes as a [T] (what
    [reinterpret_cast<char *>(&x)] followed by a read gives), the object
    representation of a value, and the value a default constructor leaves.
    An object has at least one byte and fewer than 4 GiB. *)

Class Pod (T : Type) : Type := {
  sizeof : nat;
  of_bytes : list byte -> T;
  to_bytes : T -> list byte;
  value_init : T;
  sizeof_bound : 0 < Z.of_nat sizeof < 2 ^ 32
}.
Arguments sizeof T {_}.
Arguments value_init T {_}.

(** Writing the extracted bytes [bs] over the front of a buffer [old]. *)
Definition overwrite (bs old : list byte) : list byte :=
  bs ++ skipn (length bs) old.

(** Writing [bs] over the object [x]; nothing is written when nothing was
    extracted. *)
Definition store_object {T} `{Pod T} (bs : list byte) (x : T) : T :=
  match bs with
  | [] => x
  | _ :: _ => of_bytes (firstn (sizeof T) (overwrite bs (to_bytes x)))
  end.

(** Writing [bs] over the backing storage of a vector, [v.data()]:
    element after element, as far as [bs] reaches. *)
Fixpoint store_objects {T} `{Pod T} (bs : list byte) (v : list T) : list T :=
  match v with
  | [] => []
  | x :: v' =>
      store_object (firstn (sizeof T) bs) x
        :: store_objects (skipn (sizeof T) bs) v'
  end.

(** [count] consecutive records of [size] bytes each. *)
Fixpoint chunks (size count : nat) (bs : list byte) : list (list byte) :=
  match count with
  | O => []
  | S count' => firstn size bs :: chunks size count' (skipn size bs)
  end.

(** [std::vector::resize(m)]. *)
Definition vector_resize {T} `{Pod T} (m : nat) (v : list T) : list T :=
  firstn m v ++ repeat (value_init T) (m - length v).

(** ** The records *)

(** Modelled from the spec: [extractor::QueryNode], the public node, whose
    header is not among the sources.  The loader builds it from
    (lon, lat, external id). *)
Record QueryNode : Type := mkQueryNode {
  qn_lon : Z;
  qn_lat : Z;
  qn_node_id : Z
}.

(** Modelled from the spec: [extractor::ExternalMemoryNode], the raw node
    record, with the five fields the loader reads. *)
Record ExternalMemoryNode : Type := mkExternalMemoryNode {
  lon : Z;
  lat : Z;
  node_id : Z;
  barrier : bool;
  traffic_lights : bool
}.

(** Modelled from the spec: [extractor::NodeBasedEdge], with the fields the
    validation reads. *)
Record NodeBasedEdge : Type := mkNodeBasedEdge {
  source : Z;
  target : Z;
  weight : Z;
  forward : bool;
  travel_mode : Z
}.

(** What the headers that are not among the sources fix: the fingerprint
    and its test, the layout of the three records, the travel mode that
    marks an edge as not accessible. *)
Class Layout : Type := {
  FingerPrint : Type;
  FingerPrint_pod :: Pod FingerPrint;
  (** [FingerPrint::GetValid()] *)
  GetValid : FingerPrint;
  (** [loaded.TestContractor(valid)] *)
  TestContractor : FingerPrint -> FingerPrint -> bool;
  ExternalMemoryNode_pod :: Pod ExternalMemoryNode;
  NodeBasedEdge_pod :: Pod NodeBasedEdge;
  TurnRestriction : Type;
  TurnRestriction_pod :: Pod TurnRestriction;
  TRAVEL_MODE_INACCESSIBLE : Z
}.

(** ** Streams *)

Record istream : Type := mkIstream {
  rdbuf : list byte;       (* the bytes not yet extracted *)
  failbit : bool;          (* [fail()] *)
  exceptions : bool        (* [exceptions() & failbit] *)
}.

(** [std::istream::read(dst, k)]: the bytes extracted and the stream after
    it.  A stream that has failed extracts nothing; a stream with fewer than
    [k] bytes hands out what it has and fails. *)
Definition istream_read (k : nat) (s : istream) : list byte * istream :=
  if failbit s then ([], s)
  else if (k <=? length (rdbuf s))%nat then
    (firstn k (rdbuf s),
     {| rdbuf := skipn k (rdbuf s); failbit := false; exceptions := exceptions s |})
  else
    (rdbuf s, {| rdbuf := []; failbit := true; exceptions := exceptions s |}).

(** ** Outcomes, the log and the monad of the loaders *)

Inductive exn : Type :=
| ios_failure                    (* [std::ios_base::failure], from the stream *)
| io_error (what : string)       (* the reader: the file cannot be opened *)
| format_error (what : string).  (* the reader: fingerprint or short read *)

Inductive result (A : Type) : Type :=
| Returned (a : A)
| Thrown (e : exn)
| Aborted (msg : string)
| Undefined.
Arguments Returned {A} a.
Arguments Thrown {A} e.
Arguments Aborted {A} msg.
Arguments Undefined {A}.

Inductive LogLevel : Type := logINFO | logWARNING | logDEBUG.

Inductive log_piece : Type :=
| Text (s : string)
| Num (z : Z).

(** One [SimpleLogger().Write(level) << ... ] statement. *)
Definition log_line : Type := (LogLevel * list log_piece)%type.

Section World.

Context {L : Layout}.

(** What the caller owns. *)
Record world : Type := mkWorld {
  filesystem : string -> option (list byte);
  input_stream : istream;
  barrier_node_list : list Z;
  traffic_light_node_list : list Z;
  node_array : list QueryNode;
  edge_list : list NodeBasedEdge;
  restriction_list : list TurnRestriction
}.

Definition set_input_stream (s : istream) (w : world) : world :=
  mkWorld (filesystem w) s (barrier_node_list w) (traffic_light_node_list w)
          (node_array w) (edge_list w) (restriction_list w).
Definition set_barrier_node_list (l : list Z) (w : world) : world :=
  mkWorld (filesystem w) (input_stream w) l (traffic_light_node_list w)
          (node_array w) (edge_list w) (restriction_list w).
Definition set_traffic_light_node_list (l : list Z) (w : world) : world :=
  mkWorld (filesystem w) (input_stream w) (barrier_node_list w) l
          (node_array w) (edge_list w) (restriction_list w).
Definition set_node_array (l : list QueryNode) (w : world) : world :=
  mkWorld (filesystem w) (input_stream w) (barrier_node_list w)
          (traffic_light_node_list w) l (edge_list w) (restriction_list w).
Definition set_edge_list (l : list NodeBasedEdge) (w : world) : world :=
  mkWorld (filesystem w) (input_stream w) (barrier_node_list w)
          (traffic_light_node_list w) (node_array w) l (restriction_list w).
Definition set_restriction_list (l : list TurnRestriction) (w : world) : world :=
  mkWorld (filesystem w) (input_stream w) (barrier_node_list w)
          (traffic_light_node_list w) (node_array w) (edge_list w) l.

Definition M (A : Type) : Type := world -> result A * world * list log_line.

Definition ret {A} (a : A) : M A := fun w => (Returned a, w, []).

Definition bind {A B} (c : M A) (k : A -> M B) : M B :=
  fun w =>
    match c w with
    | (Returned a, w', l) =>
        match k a w' with
        | (r, w'', l') => (r, w'', l ++ l')
        end
    | (Thrown e, w', l) => (Thrown e, w', l)
    | (Aborted msg, w', l) => (Aborted msg, w', l)
    | (Undefined, w', l) => (Undefined, w', l)
    end.

Definition get : M world := fun w => (Returned w, w, []).
Definition modify (f : world -> world) : M unit := fun w => (Returned tt, f w, []).
Definition throw {A} (e : exn) : M A := fun w => (Thrown e, w, []).
Definition abort {A} (msg : string) : M A := fun w => (Aborted msg, w, []).
Definition undefined {A} : M A := fun w => (Undefined, w, []).
Definition Write (level : LogLevel) (line : list log_piece) : M unit :=
  fun w => (Returned tt, w, [(level, line)]).

End World.

Declare Scope loader_scope.
Delimit Scope loader_scope with loader.
Notation "x <- c ;; k" := (bind c (fun x => k))
  (at level 61, c at next level, right associativity) : loader_scope.
Notation "' p <- c ;; k" := (bind c (fun x => match x with p => k end))
  (at level 61, p pattern, c at next level, right associativity) : loader_scope.
Notation "c ;; k" := (bind c (fun _ => k))
  (at level 61, right associativity) : loader_scope.
Local Open Scope loader_scope.

(** ** The loaders *)

Section Loaders.

Context {L : Layout}.

(** [BOOST_ASSERT(cond)]: nothing when [NDEBUG] is defined, otherwise
    [assert], which aborts the process. *)
Definition BOOST_ASSERT (NDEBUG : bool) (cond : bool) (expr : string) : M unit :=
  if NDEBUG then ret tt else if cond then ret tt else abort expr.

(** [BOOST_ASSERT_MSG(cond, msg)] in code compiled without [NDEBUG]. *)
Definition BOOST_ASSERT_MSG (cond : bool) (msg : string) : M unit :=
  if cond then ret tt else abort msg.

(** [input_stream.read(dst, k)].  [store] writes the extracted bytes to
    [dst] when [dst] belongs to the caller; the bytes are also handed to the
    continuation, which is how a local destination receives them.  When the
    stream fails and its exception mask asks for it, [setstate] throws (the
    bytes are in [dst] by then). *)
Definition read (k : nat) (store : list byte -> world -> world) : M (list byte) :=
  fun w =>
    match istream_read k (input_stream w) with
    | (bs, s) =>
        let w' := store bs (set_input_stream s w) in
        if failbit s && exceptions s then (Thrown ios_failure, w', [])
        else (Returned bs, w', [])
    end.

(** The destination is a local of the loader. *)
Definition to_local (_ : list byte) (w : world) : world := w.

(** [unsigned x;] then [input_stream.read] of [sizeof(unsigned)] bytes into
    [x], followed by a use of [x].  [x] is not initialised: unless all four
    bytes arrive its value is indeterminate. *)
Definition read_unsigned : M Z :=
  bs <- read sizeof_unsigned to_local ;;
  if (length bs <? sizeof_unsigned)%nat then undefined
  else ret (le_decode bs).

(** *** [loadNodesFromFile] *)

(** The body of [for (NodeID i = 0; i < n; ++i)], [remaining] = [n - i]
    times.  [i] stays below [n < 2^32], so [++i] does not wrap.
    [current_node] is declared outside of the loop: a read that comes short
    leaves the bytes of the record before in it. *)
Fixpoint load_nodes_loop (remaining : nat) (i : Z)
  (current_node : ExternalMemoryNode) : M unit :=
  match remaining with
  | O => ret tt
  | S remaining' =>
      bs <- read (sizeof ExternalMemoryNode) to_local ;;
      let current_node := store_object bs current_node in
      modify (fun w =>
        set_node_array
          (node_array w
           ++ [mkQueryNode (lon current_node) (lat current_node)
                           (node_id current_node)]) w) ;;
      (if barrier current_node
       then modify (fun w => set_barrier_node_list (barrier_node_list w ++ [i]) w)
       else ret tt) ;;
      (if traffic_lights current_node
       then modify (fun w =>
              set_traffic_light_node_list (traffic_light_node_list w ++ [i]) w)
       else ret tt) ;;
      load_nodes_loop remaining' (i + 1) current_node
  end.

Definition loadNodesFromFile : M Z :=
  let fingerprint_valid := GetValid in
  fp <- read (sizeof FingerPrint) to_local ;;
  (* a short read leaves [fingerprint_loaded] partly unwritten and the stream
     failed, so that [n], which has no initialiser, is read unwritten *)
  if (length fp <? sizeof FingerPrint)%nat then undefined else
  let fingerprint_loaded : FingerPrint := of_bytes fp in
  (if negb (TestContractor fingerprint_loaded fingerprint_valid)
   then Write logWARNING
          [Text ".osrm was prepared with different build.";
           Text "Reprocess to get rid of this warning."]
   else ret tt) ;;
  n <- read_unsigned ;;
  Write logINFO [Text "Importing n = "; Num n; Text " nodes "] ;;
  (* [node_array.reserve(n)] changes the capacity only *)
  load_nodes_loop (Z.to_nat n) 0 (value_init ExternalMemoryNode) ;;
  (* [shrink_to_fit] changes the capacity only *)
  ret n.

(** *** [loadEdgesFromFile] *)

(** The comparator handed to [tbb::parallel_sort]. *)
Definition edge_less (lhs rhs : NodeBasedEdge) : bool :=
  (source lhs <? source rhs)
  || ((source lhs =? source rhs) && (target lhs <? target rhs)).

(** [tbb::parallel_sort(first, last, comp)], a library routine. *)
Variable parallel_sort :
  (NodeBasedEdge -> NodeBasedEdge -> bool) -> list NodeBasedEdge -> list NodeBasedEdge.

(** The body of [for (auto i = 1u; i < edge_list.size(); ++i)],
    [remaining] = [edge_list.size() - i] times. *)
Fixpoint validate_edges_loop (remaining : nat) (i : nat) : M unit :=
  match remaining with
  | O => ret tt
  | S remaining' =>
      w <- get ;;
      let edge := nth i (edge_list w) (value_init NodeBasedEdge) in
      let prev_edge := nth (i - 1) (edge_list w) (value_init NodeBasedEdge) in
      BOOST_ASSERT_MSG (0 <? weight edge) "loaded null weight" ;;
      BOOST_ASSERT_MSG (forward edge)
        "edge must be oriented in forward direction" ;;
      BOOST_ASSERT_MSG (negb (travel_mode edge =? TRAVEL_MODE_INACCESSIBLE))
        "loaded non-accessible" ;;
      BOOST_ASSERT_MSG (negb (source edge =? target edge))
        "loaded edges contain a loop" ;;
      BOOST_ASSERT_MSG
        (negb (source edge =? source prev_edge)
         || negb (target edge =? target prev_edge))
        "loaded edges contain a multi edge" ;;
      validate_edges_loop remaining' (S i)
  end.

(** [NDEBUG] tells whether the build is an optimised one. *)
Definition loadEdgesFromFile (NDEBUG : bool) : M Z :=
  m <- read_unsigned ;;
  modify (fun w => set_edge_list (vector_resize (Z.to_nat m) (edge_list w)) w) ;;
  Write logINFO [Text " and "; Num m; Text " edges "] ;;
  read (Z.to_nat (size_t_mul m (Z.of_nat (sizeof NodeBasedEdge))))
       (fun bs w => set_edge_list (store_objects bs (edge_list w)) w) ;;
  w <- get ;;
  BOOST_ASSERT NDEBUG (0 <? length (edge_list w))%nat "edge_list.size() > 0" ;;
  (if NDEBUG then ret tt
   else
     Write logINFO [Text "Validating loaded edges..."] ;;
     modify (fun w => set_edge_list (parallel_sort edge_less (edge_list w)) w) ;;
     w <- get ;;
     validate_edges_loop (length (edge_list w) - 1) 1) ;;
  w <- get ;;
  Write logINFO [Text "Graph loaded ok and has ";
                 Num (Z.of_nat (length (edge_list w))); Text " edges"] ;;
  ret m.

(** *** [loadRestrictionsFromFile] *)

Inductive FingerprintFlag : Type := VerifyFingerprint | HasNoFingerprint.

(** Modelled from the spec: [storage::io::FileReader], the scoped binary
    reader; [storage/io.hpp] is not among the sources.  The reader owns the
    bytes of the file that are still to be read. *)
Record FileReader : Type := mkFileReader {
  reader_filename : string;
  reader_bytes : list byte
}.

(** Modelled from the spec: the constructor of [storage::io::FileReader].
    It "opens a path; fails with an I/O error if unreadable" and "optionally
    verifies the fingerprint header on open"; the validator "reads a
    fixed-size tag and compares it field-wise to a compiled-in expected
    value", and a mismatch "is fatal for the restriction loader when
    verification is requested".  The comparison is taken to be the test the
    node loader applies. *)
Definition FileReader_open (filename : string) (flag : FingerprintFlag)
  : M FileReader :=
  w <- get ;;
  match filesystem w filename with
  | None => throw (io_error "Error opening file")
  | Some bytes =>
      match flag with
      | HasNoFingerprint => ret (mkFileReader filename bytes)
      | VerifyFingerprint =>
          if (length bytes <? sizeof FingerPrint)%nat
          then throw (format_error "Unexpected end of file")
          else if TestContractor
                    (of_bytes (firstn (sizeof FingerPrint) bytes)) GetValid
          then ret (mkFileReader filename (skipn (sizeof FingerPrint) bytes))
          else throw (format_error "Fingerprint mismatch")
      end
  end.

(** Modelled from the spec: [FileReader::ReadElementCount32], which "decodes
    one fixed-width unsigned integer, advancing the stream"; "any short or
    corrupt read surfaces immediately as a failure". *)
Definition ReadElementCount32 (file : FileReader) : M (Z * FileReader) :=
  if (length (reader_bytes file) <? sizeof_unsigned)%nat
  then throw (format_error "Unexpected end of file")
  else ret (le_decode (firstn sizeof_unsigned (reader_bytes file)),
            mkFileReader (reader_filename file)
                         (skipn sizeof_unsigned (reader_bytes file))).

(** Modelled from the spec: [FileReader::ReadInto(buffer, byteLength)], which
    "fails with a format error if fewer bytes remain than requested".  The
    bytes read are returned for the caller to place in [buffer]. *)
Definition ReadInto (file : FileReader) (byteLength : Z)
  : M (list byte * FileReader) :=
  if Z.of_nat (length (reader_bytes file)) <? byteLength
  then throw (format_error "Unexpected end of file")
  else ret (firstn (Z.to_nat byteLength) (reader_bytes file),
            mkFileReader (reader_filename file)
                         (skipn (Z.to_nat byteLength) (reader_bytes file))).

Definition loadRestrictionsFromFile (filename : string) : M Z :=
  file <- FileReader_open filename VerifyFingerprint ;;
  '(number_of_usable_restrictions, file) <- ReadElementCount32 file ;;
  modify (fun w =>
    set_restriction_list
      (vector_resize (Z.to_nat number_of_usable_restrictions)
                     (restriction_list w)) w) ;;
  (if 0 <? number_of_usable_restrictions
   then
     '(bs, _) <- ReadInto file
                   (size_t_mul number_of_usable_restrictions
                               (Z.of_nat (sizeof TurnRestriction))) ;;
     modify (fun w =>
       set_restriction_list (store_objects bs (restriction_list w)) w)
   else ret tt) ;;
  ret number_of_usable_restrictions.

End Loaders.


(** ** What the loaders are compared with *)

Section Reading.

Context {L : Layout}.

(** The public node built from a raw record. *)
Definition public_node (r : ExternalMemoryNode) : QueryNode :=
  mkQueryNode (lon r) (lat r) (node_id r).

(** Record number [i] of a block of records. *)
Definition record_at {T} `{Pod T} (payload : list byte) (i : nat) : T :=
  of_bytes (firstn (sizeof T) (skipn (i * sizeof T) payload)).

(** The first [count] records of a block, in order. *)
Definition records {T} `{Pod T} (count : nat) (payload : list byte) : list T :=
  map of_bytes (chunks (sizeof T) count payload).

(** The positions, counted from [i], of the records whose flag is set. *)
Fixpoint flagged_ids (flag : ExternalMemoryNode -> bool) (i : Z)
  (rs : list ExternalMemoryNode) : list Z :=
  match rs with
  | [] => []
  | r :: rs' => (if flag r then [i] else []) ++ flagged_ids flag (i + 1) rs'
  end.

(** What [k] rounds of the node loop make of a stream: the records they
    see, the stream they leave and whether the stream threw. *)
Fixpoint scan_records (k : nat) (s : istream)
  (current_node : ExternalMemoryNode)
  : list ExternalMemoryNode * istream * bool :=
  match k with
  | O => ([], s, false)
  | S k' =>
      match istream_read (sizeof ExternalMemoryNode) s with
      | (bs, s1) =>
          if failbit s1 && exceptions s1 then ([], s1, true)
          else
            let current_node := store_object bs current_node in
            match scan_records k' s1 current_node with
            | (rs, s2, t) => (current_node :: rs, s2, t)
            end
      end
  end.

(** The world the node loop leaves when it has seen the records [rs]
    counted from [i] and left the stream [s]. *)
Definition after_nodes (w : world) (s : istream) (i : Z)
  (rs : list ExternalMemoryNode) : world :=
  mkWorld (filesystem w) s
          (barrier_node_list w ++ flagged_ids barrier i rs)
          (traffic_light_node_list w ++ flagged_ids traffic_lights i rs)
          (node_array w ++ map public_node rs)
          (edge_list w) (restriction_list w).

(** The warning about a fingerprint of another build. *)
Definition fingerprint_warning : log_line :=
  (logWARNING,
   [Text ".osrm was prepared with different build.";
    Text "Reprocess to get rid of this warning."]).

(** Whether the fingerprint bytes [fp] pass the test of the loaders. *)
Definition fingerprint_ok (fp : list byte) : bool :=
  TestContractor (of_bytes fp) GetValid.

(** What the node loader logs for fingerprint bytes [fp] and count [n]. *)
Definition node_log (fp : list byte) (n : Z) : list log_line :=
  (if fingerprint_ok fp then [] else [fingerprint_warning])
  ++ [(logINFO, [Text "Importing n = "; Num n; Text " nodes "])].

(** The (source, target) pair of an edge. *)
Definition edge_key (e : NodeBasedEdge) : Z * Z := (source e, target e).

(** The four checks the validation makes on one edge. *)
Definition edge_ok (e : NodeBasedEdge) : bool :=
  (0 <? weight e) && forward e
  && negb (travel_mode e =? TRAVEL_MODE_INACCESSIBLE)
  && negb (source e =? target e).

(** The check the validation makes on an edge and the one before it. *)
Definition edge_differs (e prev : NodeBasedEdge) : bool :=
  negb (source e =? source prev) || negb (target e =? target prev).

(** The message of the first assertion that fails for an edge and the one
    before it, in the order of the assertions in the loop. *)
Definition check_edge (e prev : NodeBasedEdge) : option string :=
  if negb (0 <? weight e) then Some "loaded null weight"%string
  else if negb (forward e)
  then Some "edge must be oriented in forward direction"%string
  else if travel_mode e =? TRAVEL_MODE_INACCESSIBLE
  then Some "loaded non-accessible"%string
  else if source e =? target e then Some "loaded edges contain a loop"%string
  else if negb (edge_differs e prev)
  then Some "loaded edges contain a multi edge"%string
  else None.

(** The first failure in the edges [l] that follow [prev]. *)
Fixpoint first_violation (prev : NodeBasedEdge) (l : list NodeBasedEdge)
  : option string :=
  match l with
  | [] => None
  | e :: l' =>
      match check_edge e prev with
      | Some msg => Some msg
      | None => first_violation e l'
      end
  end.

(** The first failure of the validation loop over a sorted container. *)
Definition validation_outcome (l : list NodeBasedEdge) : option string :=
  match l with
  | [] => None
  | e0 :: l' => first_violation e0 l'
  end.

(** The lines the edge loader logs. *)
Definition edges_line (m : Z) : log_line :=
  (logINFO, [Text " and "; Num m; Text " edges "]).
Definition validating_line : log_line :=
  (logINFO, [Text "Validating loaded edges..."]).
Definition loaded_line (size : nat) : log_line :=
  (logINFO, [Text "Graph loaded ok and has "; Num (Z.of_nat size);
             Text " edges"]).

(** The order of the keys that [edge_less] compares. *)
Definition key_lt (a b : Z * Z) : Prop :=
  fst a < fst b \/ (fst a = fst b /\ snd a < snd b).

(** A stream that is in a good state and holds [front], then a 32-bit
    count [hdr], then that many records of [size] bytes, then [rest]. *)
Definition counted_stream (size : nat) (s : istream)
  (front hdr payload rest : list byte) : Prop :=
  rdbuf s = front ++ hdr ++ payload ++ rest
  /\ failbit s = false
  /\ length hdr = sizeof_unsigned
  /\ length payload = (Z.to_nat (le_decode hdr) * size)%nat.

(** A stream in a good state whose count [hdr] declares more records than
    the [tail] that follows it can hold. *)
Definition truncated_stream (size : nat) (s : istream)
  (front hdr tail : list byte) : Prop :=
  rdbuf s = front ++ hdr ++ tail
  /\ failbit s = false
  /\ length hdr = sizeof_unsigned
  /\ (length tail < Z.to_nat (le_decode hdr) * size)%nat.

(** The contract of a sorting routine for the comparator [less]: the result
    is a rearrangement of the input in which no element is [less] than the
    one before it. *)
Definition sorts (less : NodeBasedEdge -> NodeBasedEdge -> bool)
  (sort : list NodeBasedEdge -> list NodeBasedEdge) : Prop :=
  forall l, Permutation l (sort l)
            /\ Sorted (fun a b => less b a = false) (sort l).

End Reading.

(** ** A sample platform

    A concrete layout and a concrete sorting routine, on which the
    statements below are exercised. *)

Module Sample.

Definition bool_of_byte (b : byte) : bool := negb (byte_to_Z b =? 0).
Definition byte_of_bool (b : bool) : byte := if b then x01 else x00.

Definition field (off len : nat) (bs : list byte) : Z :=
  le_decode (firstn len (skipn off bs)).

Definition flag_at (off : nat) (bs : list byte) : bool :=
  bool_of_byte (nth off bs x00).

(** A fingerprint of one 32-bit magic number. *)
#[export] Instance fingerprint_pod : Pod Z := {|
  sizeof := 4;
  of_bytes := field 0 4;
  to_bytes := le_encode 4;
  value_init := 0;
  sizeof_bound := conj eq_refl eq_refl
|}.

(** lon and lat (signed, 4 bytes each), the external id (8 bytes), the two
    flags (1 byte each), 6 bytes of padding. *)
#[export] Instance node_pod : Pod ExternalMemoryNode := {|
  sizeof := 24;
  of_bytes := fun bs =>
    mkExternalMemoryNode (to_int32 (field 0 4 bs)) (to_int32 (field 4 4 bs))
                         (field 8 8 bs) (flag_at 16 bs) (flag_at 17 bs);
  to_bytes := fun r =>
    le_encode 4 (lon r) ++ le_encode 4 (lat r) ++ le_encode 8 (node_id r)
    ++ [byte_of_bool (barrier r); byte_of_bool (traffic_lights r)]
    ++ repeat x00 6;
  value_init := mkExternalMemoryNode (2 ^ 31 - 1) (2 ^ 31 - 1) (2 ^ 64 - 1) false false;
  sizeof_bound := conj eq_refl eq_refl
|}.

(** source, target (4 bytes each), weight (signed, 4 bytes), the forward
    flag and the travel mode (1 byte each), 2 bytes of padding. *)
#[export] Instance edge_pod : Pod NodeBasedEdge := {|
  sizeof := 16;
  of_bytes := fun bs =>
    mkNodeBasedEdge (field 0 4 bs) (field 4 4 bs) (to_int32 (field 8 4 bs))
                    (flag_at 12 bs) (field 13 1 bs);
  to_bytes := fun e =>
    le_encode 4 (source e) ++ le_encode 4 (target e) ++ le_encode 4 (weight e)
    ++ [byte_of_bool (forward e); byte_of_Z (travel_mode e)]
    ++ repeat x00 2;
  value_init := mkNodeBasedEdge (2 ^ 32 - 1) (2 ^ 32 - 1) 0 false 0;
  sizeof_bound := conj eq_refl eq_refl
|}.

(** via, from and to, 4 bytes each. *)
#[export] Instance restriction_pod : Pod (Z * Z * Z) := {|
  sizeof := 12;
  of_bytes := fun bs => (field 0 4 bs, field 4 4 bs, field 8 4 bs);
  to_bytes := fun r =>
    match r with
    | (via, from, to) => le_encode 4 via ++ le_encode 4 from ++ le_encode 4 to
    end;
  value_init := (2 ^ 32 - 1, 2 ^ 32 - 1, 2 ^ 32 - 1);
  sizeof_bound := conj eq_refl eq_refl
|}.

Definition magic : Z := 1297240911.

#[export] Instance layout : Layout := {|
  FingerPrint := Z;
  FingerPrint_pod := fingerprint_pod;
  GetValid := magic;
  TestContractor := fun loaded valid => loaded =? valid;
  ExternalMemoryNode_pod := node_pod;
  NodeBasedEdge_pod := edge_pod;
  TurnRestriction := (Z * Z * Z)%type;
  TurnRestriction_pod := restriction_pod;
  TRAVEL_MODE_INACCESSIBLE := 0
|}.

(** Insertion sort for a comparator. *)
Fixpoint insert (less : NodeBasedEdge -> NodeBasedEdge -> bool)
  (x : NodeBasedEdge) (l : list NodeBasedEdge) : list NodeBasedEdge :=
  match l with
  | [] => [x]
  | y :: l' => if less x y then x :: y :: l' else y :: insert less x l'
  end.

Fixpoint sort (less : NodeBasedEdge -> NodeBasedEdge -> bool)
  (l : list NodeBasedEdge) : list NodeBasedEdge :=
  match l with
  | [] => []
  | x :: l' => insert less x (sort less l')
  end.

(** Encoders of the sample layout, to write streams with. *)
Definition u32 (z : Z) : list byte := le_encode 4 z.

Definition node_bytes (lon lat id : Z) (barrier lights : bool) : list byte :=
  to_bytes (mkExternalMemoryNode lon lat id barrier lights).

Definition edge_bytes (source target weight : Z) (forward : bool) (mode : Z)
  : list byte :=
  to_bytes (mkNodeBasedEdge source target weight forward mode).

(** A stream in a good state with the default exception mask. *)
Definition stream_of (bs : list byte) : istream := mkIstream bs false false.

(** A caller with empty containers and no files. *)
Definition fresh (s : istream) : world :=
  mkWorld (fun _ => None) s [] [] [] [] [].

(** A caller with an empty restriction list and one file. *)
Definition with_file (name : string) (bs : list byte) : world :=
  mkWorld (fun f => if String.eqb f name then Some bs else None)
          (stream_of []) [] [] [] [] [].

(** Two node records: the first a barrier, the second a traffic light. *)
Definition two_nodes : list byte :=
  node_bytes 10 20 7 true false ++ node_bytes (-5) 6 8 false true.

(** A well-formed edge that runs from [source] to [target]. *)
Definition good_edge (source target : Z) : list byte :=
  edge_bytes source target 5 true 1.

(** A self-loop at node 0 of weight 0, not forward and not accessible. *)
Definition bad_edge : list byte := edge_bytes 0 0 0 false 0.

End Sample.

(** ** Bytes, blocks and vectors *)

Lemma byte_to_Z_range (b : byte) : 0 <= byte_to_Z b < 256.
Proof.
  unfold byte_to_Z. pose proof (Byte.to_N_bounded b) as Hb. lia.
Qed.

Lemma le_decode_range (bs : list byte) :
  0 <= le_decode bs < 256 ^ Z.of_nat (length bs).
Proof.
  induction bs as [|b bs IH].
  - simpl. lia.
  - cbn [le_decode length]. rewrite Nat2Z.inj_succ, Z.pow_succ_r by lia.
    pose proof (byte_to_Z_range b). lia.
Qed.

Lemma le_decode_unsigned (bs : list byte) :
  length bs = sizeof_unsigned -> 0 <= le_decode bs < 2 ^ 32.
Proof.
  intros Hlen. pose proof (le_decode_range bs) as H. rewrite Hlen in H.
  exact H.
Qed.

Lemma chunks_length (size count : nat) (bs : list byte) :
  length (chunks size count bs) = count.
Proof.
  revert bs. induction count as [|c IH]; intros bs; simpl; [reflexivity|].
  now rewrite IH.
Qed.

Lemma chunks_app (size count : nat) (bs rest : list byte) :
  length bs = (count * size)%nat ->
  chunks size count (bs ++ rest) = chunks size count bs.
Proof.
  revert bs. induction count as [|c IH]; intros bs Hlen; simpl; [reflexivity|].
  simpl in Hlen.
  rewrite firstn_app, skipn_app.
  replace (size - length bs)%nat with 0%nat by lia.
  simpl. rewrite app_nil_r. f_equal.
  apply IH. rewrite length_skipn. lia.
Qed.

Lemma chunks_nth (size count : nat) (bs : list byte) (i : nat) :
  (i < count)%nat ->
  nth_error (chunks size count bs) i
  = Some (firstn size (skipn (i * size) bs)).
Proof.
  revert bs i. induction count as [|c IH]; intros bs i Hi; [lia|].
  destruct i as [|i]; simpl.
  - reflexivity.
  - rewrite IH by lia. rewrite skipn_skipn.
    now replace (i * size + size)%nat with (size + i * size)%nat by lia.
Qed.

Lemma records_length {T} `{Pod T} (count : nat) (payload : list byte) :
  length (records (T := T) count payload) = count.
Proof.
  unfold records. now rewrite length_map, chunks_length.
Qed.

Lemma records_nth {T} `{Pod T} (count : nat) (payload : list byte) (i : nat) :
  (i < count)%nat ->
  nth_error (records (T := T) count payload) i = Some (record_at payload i).
Proof.
  intros Hi. unfold records, record_at.
  rewrite nth_error_map, chunks_nth by assumption. reflexivity.
Qed.

Lemma sizeof_pos {T} `{Pod T} : (0 < sizeof T)%nat.
Proof.
  pose proof (sizeof_bound (T := T)). lia.
Qed.

Lemma store_objects_length {T} `{Pod T} (bs : list byte) (v : list T) :
  length (store_objects bs v) = length v.
Proof.
  revert bs. induction v as [|x v IH]; intros bs; simpl; [reflexivity|].
  now rewrite IH.
Qed.

Lemma store_object_whole {T} `{Pod T} (bs : list byte) (x : T) :
  length bs = sizeof T -> store_object bs x = of_bytes bs.
Proof.
  intros Hlen. pose proof (sizeof_pos (T := T)) as Hpos.
  unfold store_object, overwrite.
  destruct bs as [|b bs]; [simpl in Hlen; lia|].
  rewrite firstn_app, Hlen, Nat.sub_diag. simpl firstn at 2.
  rewrite app_nil_r. rewrite <- Hlen. now rewrite firstn_all.
Qed.

Lemma store_objects_whole {T} `{Pod T} (bs : list byte) (v : list T) :
  length bs = (length v * sizeof T)%nat ->
  store_objects bs v = records (length v) bs.
Proof.
  unfold records.
  revert bs. induction v as [|x v IH]; intros bs Hlen; simpl; [reflexivity|].
  simpl in Hlen.
  rewrite store_object_whole by (rewrite length_firstn; lia).
  f_equal. apply IH. rewrite length_skipn. lia.
Qed.

Lemma vector_resize_length {T} `{Pod T} (m : nat) (v : list T) :
  length (vector_resize m v) = m.
Proof.
  unfold vector_resize. rewrite length_app, length_firstn, repeat_length. lia.
Qed.

(** ** Streams *)

Lemma istream_read_whole (k : nat) (s : istream) (bs rest : list byte) :
  failbit s = false -> rdbuf s = bs ++ rest -> length bs = k ->
  istream_read k s = (bs, mkIstream rest false (exceptions s)).
Proof.
  intros Hgood Hbuf Hlen. unfold istream_read. rewrite Hgood, Hbuf.
  rewrite length_app.
  destruct (Nat.leb_spec k (length bs + length rest)); [|lia].
  rewrite firstn_app, skipn_app, <- Hlen, Nat.sub_diag, firstn_all, skipn_all.
  simpl. now rewrite app_nil_r.
Qed.

Lemma istream_read_short (k : nat) (s : istream) :
  failbit s = false -> (length (rdbuf s) < k)%nat ->
  istream_read k s = (rdbuf s, mkIstream [] true (exceptions s)).
Proof.
  intros Hgood Hlen. unfold istream_read. rewrite Hgood.
  destruct (Nat.leb_spec k (length (rdbuf s))); [lia|reflexivity].
Qed.

Lemma istream_read_failed (k : nat) (s : istream) :
  failbit s = true -> istream_read k s = ([], s).
Proof.
  intros Hbad. unfold istream_read. now rewrite Hbad.
Qed.

Lemma istream_read_exceptions (k : nat) (s : istream) :
  exceptions (snd (istream_read k s)) = exceptions s.
Proof.
  unfold istream_read. destruct (failbit s); [reflexivity|].
  destruct (k <=? length (rdbuf s))%nat; reflexivity.
Qed.

(** ** The node loader *)

Section NodeLoader.

Context {L : Layout}.

Lemma load_nodes_loop_scan (k : nat) (i : Z) (cur : ExternalMemoryNode)
  (w : world) :
  load_nodes_loop k i cur w
  = match scan_records k (input_stream w) cur with
    | (rs, s, t) =>
        (if t then Thrown ios_failure else Returned tt, after_nodes w s i rs, [])
    end.
Proof.
  revert i cur w. induction k as [|k IH]; intros i cur w.
  - destruct w. unfold after_nodes. simpl. unfold ret.
    now rewrite !app_nil_r.
  - cbn [load_nodes_loop scan_records]. unfold bind at 1. unfold read at 1.
    destruct (istream_read (sizeof ExternalMemoryNode) (input_stream w))
      as [bs s1].
    destruct (failbit s1 && exceptions s1).
    + destruct w. unfold after_nodes, to_local, set_input_stream. simpl.
      now rewrite !app_nil_r.
    + unfold bind, modify, ret.
      destruct (barrier (store_object bs cur)) eqn:Hb;
        destruct (traffic_lights (store_object bs cur)) eqn:Ht;
        rewrite IH; clear IH; simpl;
        destruct (scan_records k s1 (store_object bs cur)) as [[rs s2] t];
        destruct w; unfold after_nodes; simpl;
        rewrite ?Hb, ?Ht; simpl;
        rewrite <- ?app_assoc; reflexivity.
Qed.

Lemma read_whole (k : nat) (store : list byte -> world -> world)
  (w : world) (bs rest : list byte) :
  failbit (input_stream w) = false ->
  rdbuf (input_stream w) = bs ++ rest ->
  length bs = k ->
  read k store w
  = (Returned bs,
     store bs (set_input_stream
                 (mkIstream rest false (exceptions (input_stream w))) w),
     []).
Proof.
  intros Hgood Hbuf Hlen. unfold read.
  rewrite (istream_read_whole k _ bs rest) by assumption. reflexivity.
Qed.

Lemma read_unsigned_whole (w : world) (hdr rest : list byte) :
  failbit (input_stream w) = false ->
  rdbuf (input_stream w) = hdr ++ rest ->
  length hdr = sizeof_unsigned ->
  read_unsigned w
  = (Returned (le_decode hdr),
     set_input_stream (mkIstream rest false (exceptions (input_stream w))) w,
     []).
Proof.
  intros Hgood Hbuf Hlen. unfold read_unsigned, bind.
  rewrite (read_whole _ _ _ hdr rest) by assumption.
  rewrite Hlen, Nat.ltb_irrefl. reflexivity.
Qed.

Lemma scan_records_whole (k : nat) (s : istream) (cur : ExternalMemoryNode)
  (payload rest : list byte) :
  failbit s = false ->
  rdbuf s = payload ++ rest ->
  length payload = (k * sizeof ExternalMemoryNode)%nat ->
  scan_records k s cur
  = (records k payload, mkIstream rest false (exceptions s), false).
Proof.
  revert s cur payload.
  induction k as [|k IH]; intros s cur payload Hgood Hbuf Hlen.
  - destruct payload; [|discriminate]. destruct s; simpl in *. now subst.
  - simpl in Hlen. cbn [scan_records].
    rewrite (istream_read_whole _ s
               (firstn (sizeof ExternalMemoryNode) payload)
               (skipn (sizeof ExternalMemoryNode) payload ++ rest)).
    + cbn [failbit andb].
      rewrite (IH _ _ (skipn (sizeof ExternalMemoryNode) payload)).
      * unfold records. cbn [chunks map exceptions]. f_equal. f_equal. f_equal.
        apply store_object_whole. rewrite length_firstn. lia.
      * reflexivity.
      * reflexivity.
      * rewrite length_skipn. lia.
    + assumption.
    + now rewrite app_assoc, firstn_skipn.
    + rewrite length_firstn. lia.
Qed.

(** The node loader on a stream that holds all the records it declares. *)
Lemma loadNodesFromFile_whole (w : world) (fp hdr payload rest : list byte) :
  counted_stream (sizeof ExternalMemoryNode) (input_stream w)
                 fp hdr payload rest ->
  length fp = sizeof FingerPrint ->
  loadNodesFromFile w
  = (Returned (le_decode hdr),
     after_nodes w (mkIstream rest false (exceptions (input_stream w))) 0
                 (records (Z.to_nat (le_decode hdr)) payload),
     node_log fp (le_decode hdr)).
Proof.
  intros (Hbuf & Hgood & Hhdr & Hpay) Hfp.
  unfold loadNodesFromFile. unfold bind at 1.
  rewrite (read_whole _ _ _ fp (hdr ++ payload ++ rest)) by assumption.
  rewrite Hfp, Nat.ltb_irrefl. unfold to_local.
  unfold node_log, fingerprint_ok.
  set (w1 := set_input_stream _ w).
  assert (Hrest :
    (n <- read_unsigned ;;
     Write logINFO [Text "Importing n = "; Num n; Text " nodes "] ;;
     load_nodes_loop (Z.to_nat n) 0 (value_init ExternalMemoryNode) ;;
     ret n) w1
    = (Returned (le_decode hdr),
       after_nodes w (mkIstream rest false (exceptions (input_stream w))) 0
                 (records (Z.to_nat (le_decode hdr)) payload),
       [(logINFO, [Text "Importing n = "; Num (le_decode hdr); Text " nodes "])])).
  { unfold bind at 1.
    rewrite (read_unsigned_whole w1 hdr (payload ++ rest)); try assumption;
      try reflexivity.
    unfold bind, Write. rewrite load_nodes_loop_scan.
    cbn [input_stream set_input_stream].
    rewrite (scan_records_whole _ _ _ payload rest); try assumption;
      try reflexivity. }
  unfold bind at 1.
  destruct (TestContractor (of_bytes fp) GetValid); cbn [negb];
    [unfold ret at 1 | unfold Write at 1]; cbv beta iota;
    rewrite Hrest; reflexivity.
Qed.

(** *** Taking a run of the loader apart *)

Lemma bind_Returned_inv {A B} (c : M A) (k : A -> M B) (w w' : world)
  (b : B) (l : list log_line) :
  bind c k w = (Returned b, w', l) ->
  exists a w1 l1 l2,
    c w = (Returned a, w1, l1) /\ k a w1 = (Returned b, w', l2)
    /\ l = l1 ++ l2.
Proof.
  unfold bind. destruct (c w) as [[r w1] l1].
  destruct r as [a| | |]; try discriminate.
  destruct (k a w1) as [[r2 w2] l2] eqn:Hk.
  intros H. inversion H; subst. now exists a, w1, l1, l2.
Qed.

Lemma istream_read_length (k : nat) (s : istream) :
  (length (fst (istream_read k s)) <= k)%nat.
Proof.
  unfold istream_read. destruct (failbit s); [simpl; lia|].
  destruct (Nat.leb_spec k (length (rdbuf s))); simpl.
  - rewrite length_firstn. lia.
  - lia.
Qed.

Lemma read_Returned_inv (k : nat) (store : list byte -> world -> world)
  (w w' : world) (bs : list byte) (l : list log_line) :
  read k store w = (Returned bs, w', l) ->
  exists s, istream_read k (input_stream w) = (bs, s)
            /\ w' = store bs (set_input_stream s w)
            /\ l = [] /\ (length bs <= k)%nat.
Proof.
  unfold read. pose proof (istream_read_length k (input_stream w)) as Hlen.
  destruct (istream_read k (input_stream w)) as [bs' s].
  destruct (failbit s && exceptions s); [discriminate|].
  intros H. inversion H; subst. exists s. simpl in Hlen. auto.
Qed.

Lemma read_unsigned_Returned_inv (w w' : world) (n : Z) (l : list log_line) :
  read_unsigned w = (Returned n, w', l) ->
  0 <= n < 2 ^ 32
  /\ l = []
  /\ exists bs s, istream_read sizeof_unsigned (input_stream w) = (bs, s)
                  /\ length bs = sizeof_unsigned /\ n = le_decode bs
                  /\ w' = set_input_stream s w.
Proof.
  unfold read_unsigned. intros H.
  apply bind_Returned_inv in H as (bs & w1 & l1 & l2 & Hread & Hk & ->).
  apply read_Returned_inv in Hread as (s & Hs & -> & -> & Hlen).
  destruct (Nat.ltb_spec (length bs) sizeof_unsigned); [discriminate|].
  unfold ret, to_local in Hk. inversion Hk; subst.
  assert (length bs = sizeof_unsigned) as Hfour by lia.
  split; [now apply le_decode_unsigned|]. split; [reflexivity|].
  now exists bs, s.
Qed.

Lemma scan_records_length (k : nat) (s s' : istream) (cur : ExternalMemoryNode)
  (rs : list ExternalMemoryNode) :
  scan_records k s cur = (rs, s', false) -> length rs = k.
Proof.
  revert s cur rs. induction k as [|k IH]; intros s cur rs H; simpl in H.
  - now inversion H.
  - destruct (istream_read (sizeof ExternalMemoryNode) s) as [bs s1].
    destruct (failbit s1 && exceptions s1); [discriminate|].
    destruct (scan_records k s1 (store_object bs cur)) as [[rs' s2] t] eqn:Hk.
    inversion H; subst. simpl. f_equal. eapply IH. eassumption.
Qed.

(** The shape of every run of the node loader that returns. *)
Lemma loadNodesFromFile_returned (w w' : world) (n : Z) (l : list log_line) :
  loadNodesFromFile w = (Returned n, w', l) ->
  0 <= n < 2 ^ 32
  /\ exists rs s, length rs = Z.to_nat n /\ w' = after_nodes w s 0 rs.
Proof.
  unfold loadNodesFromFile. intros H.
  apply bind_Returned_inv in H as (fp & w1 & l1 & l2 & Hread & H & ->).
  apply read_Returned_inv in Hread as (s1 & _ & -> & -> & _).
  destruct (length fp <? sizeof FingerPrint)%nat; [discriminate|].
  apply bind_Returned_inv in H as (u & w2 & l3 & l4 & Hwarn & H & ->).
  assert (w2 = set_input_stream s1 w) as ->.
  { unfold to_local in Hwarn.
    destruct (negb _) in Hwarn; unfold Write, ret in Hwarn;
      now inversion Hwarn. }
  apply bind_Returned_inv in H as (n' & w3 & l5 & l6 & Hn & H & ->).
  apply read_unsigned_Returned_inv in Hn
    as (Hrange & -> & bs & s2 & _ & _ & _ & ->).
  apply bind_Returned_inv in H as (u1 & w4 & l7 & l8 & Hlog & H & ->).
  unfold Write in Hlog. inversion Hlog; subst. clear Hlog.
  apply bind_Returned_inv in H as (u2 & w5 & l9 & l10 & Hloop & H & ->).
  unfold ret in H. inversion H; subst. clear H.
  rewrite load_nodes_loop_scan in Hloop.
  destruct (scan_records _ _ _) as [[rs s3] t] eqn:Hscan.
  destruct t; [discriminate|]. inversion Hloop; subst.
  split; [assumption|]. exists rs, s3. split.
  - eapply scan_records_length. eassumption.
  - destruct w. reflexivity.
Qed.

(** *** The ids of the flagged records *)

Lemma flagged_ids_bounds (flag : ExternalMemoryNode -> bool) (i : Z)
  (rs : list ExternalMemoryNode) :
  Forall (fun id => i <= id < i + Z.of_nat (length rs)) (flagged_ids flag i rs).
Proof.
  revert i. induction rs as [|r rs IH]; intros i; simpl; [constructor|].
  apply Forall_app. split.
  - destruct (flag r); constructor; [lia|constructor].
  - eapply Forall_impl; [|apply IH]. simpl. intros id Hid. lia.
Qed.

Lemma flagged_ids_increasing (flag : ExternalMemoryNode -> bool) (i : Z)
  (rs : list ExternalMemoryNode) :
  StronglySorted Z.lt (flagged_ids flag i rs).
Proof.
  revert i. induction rs as [|r rs IH]; intros i; simpl; [constructor|].
  destruct (flag r); simpl; [|apply IH].
  constructor; [apply IH|].
  eapply Forall_impl; [|apply flagged_ids_bounds]. simpl. intros id Hid. lia.
Qed.

Lemma flagged_ids_In (flag : ExternalMemoryNode -> bool) (i : Z)
  (rs : list ExternalMemoryNode) (id : Z) :
  In id (flagged_ids flag i rs)
  <-> exists j r, nth_error rs j = Some r /\ flag r = true
                  /\ id = i + Z.of_nat j.
Proof.
  revert i. induction rs as [|r rs IH]; intros i; simpl.
  - split; [tauto|]. intros (j & r & Hj & _). now destruct j.
  - rewrite in_app_iff, IH. split.
    + intros [Hhead | (j & r' & Hj & Hflag & ->)].
      * destruct (flag r) eqn:Hflag; [|contradiction].
        destruct Hhead as [<-|[]]. exists 0%nat, r. simpl.
        repeat split; [assumption|lia].
      * exists (S j), r'. simpl. repeat split; [assumption..|lia].
    + intros (j & r' & Hj & Hflag & ->). destruct j as [|j]; simpl in Hj.
      * inversion Hj; subst. left. rewrite Hflag. left. lia.
      * right. exists j, r'. repeat split; [assumption..|lia].
Qed.

Lemma flagged_ids_records (flag : ExternalMemoryNode -> bool) (count : nat)
  (payload : list byte) (id : Z) :
  In id (flagged_ids flag 0 (records count payload))
  <-> 0 <= id < Z.of_nat count
      /\ flag (record_at payload (Z.to_nat id)) = true.
Proof.
  rewrite flagged_ids_In. split.
  - intros (j & r & Hj & Hflag & ->).
    assert (j < count)%nat as Hlt.
    { rewrite <- (records_length (T := ExternalMemoryNode) count payload).
      apply nth_error_Some. congruence. }
    rewrite records_nth in Hj by assumption. inversion Hj; subst.
    simpl. rewrite Nat2Z.id. split; [lia|assumption].
  - intros (Hid & Hflag). exists (Z.to_nat id), (record_at payload (Z.to_nat id)).
    rewrite records_nth by lia. repeat split; [assumption|lia].
Qed.

(** *** The node loader on a stream that is cut short *)

Lemma scan_records_failbit (k : nat) (s s' : istream) (cur : ExternalMemoryNode)
  (rs : list ExternalMemoryNode) (t : bool) :
  scan_records k s cur = (rs, s', t) -> failbit s = true -> failbit s' = true.
Proof.
  revert s cur rs. induction k as [|k IH]; intros s cur rs H Hbad; simpl in H.
  - now inversion H; subst.
  - rewrite istream_read_failed in H by assumption.
    destruct (failbit s && exceptions s); [now inversion H; subst|].
    destruct (scan_records k s (store_object [] cur)) as [[rs' s2] t'] eqn:Hk.
    inversion H; subst. eapply IH; eassumption.
Qed.

Lemma scan_records_truncated (k : nat) (s s' : istream)
  (cur : ExternalMemoryNode) (rs : list ExternalMemoryNode) (t : bool) :
  scan_records k s cur = (rs, s', t) ->
  failbit s = false ->
  (length (rdbuf s) < k * sizeof ExternalMemoryNode)%nat ->
  failbit s' = true.
Proof.
  revert s cur rs. induction k as [|k IH]; intros s cur rs H Hgood Hlen;
    [simpl in Hlen; lia|].
  cbn [scan_records] in H.
  destruct (Nat.ltb_spec (length (rdbuf s)) (sizeof ExternalMemoryNode))
    as [Hshort|Hlong].
  - rewrite istream_read_short in H by assumption.
    cbn [failbit andb] in H.
    destruct (exceptions _) in H; [now inversion H; subst|].
    destruct (scan_records k _ _) as [[rs' s2] t'] eqn:Hk in H.
    inversion H; subst. eapply scan_records_failbit; [eassumption|reflexivity].
  - rewrite (istream_read_whole _ s
               (firstn (sizeof ExternalMemoryNode) (rdbuf s))
               (skipn (sizeof ExternalMemoryNode) (rdbuf s))) in H;
      [|assumption|now rewrite firstn_skipn|rewrite length_firstn; lia].
    cbn [failbit andb] in H.
    destruct (scan_records k _ _) as [[rs' s2] t'] eqn:Hk in H.
    inversion H; subst. eapply IH; [eassumption|reflexivity|].
    cbn [rdbuf]. rewrite length_skipn. simpl in Hlen. lia.
Qed.

Lemma scan_records_exceptions (k : nat) (s s' : istream)
  (cur : ExternalMemoryNode) (rs : list ExternalMemoryNode) (t : bool) :
  scan_records k s cur = (rs, s', t) -> exceptions s' = exceptions s.
Proof.
  revert s cur rs. induction k as [|k IH]; intros s cur rs H; simpl in H.
  - now inversion H; subst.
  - pose proof (istream_read_exceptions (sizeof ExternalMemoryNode) s) as He.
    destruct (istream_read (sizeof ExternalMemoryNode) s) as [bs s1].
    simpl in He.
    destruct (failbit s1 && exceptions s1); [now inversion H; subst|].
    destruct (scan_records k s1 (store_object bs cur)) as [[rs' s2] t'] eqn:Hk.
    inversion H; subst. rewrite <- He. eapply IH; eassumption.
Qed.

Lemma scan_records_quiet (k : nat) (s s' : istream) (cur : ExternalMemoryNode)
  (rs : list ExternalMemoryNode) (t : bool) :
  scan_records k s cur = (rs, s', t) -> exceptions s = false -> t = false.
Proof.
  revert s cur rs. induction k as [|k IH]; intros s cur rs H Hq; simpl in H.
  - now inversion H.
  - pose proof (istream_read_exceptions (sizeof ExternalMemoryNode) s) as He.
    destruct (istream_read (sizeof ExternalMemoryNode) s) as [bs s1].
    simpl in He. rewrite He, Hq, andb_false_r in H.
    destruct (scan_records k s1 (store_object bs cur)) as [[rs' s2] t'] eqn:Hk.
    inversion H; subst. eapply IH; [eassumption|congruence].
Qed.

Lemma scan_records_thrown (k : nat) (s s' : istream) (cur : ExternalMemoryNode)
  (rs : list ExternalMemoryNode) (t : bool) :
  scan_records k s cur = (rs, s', t) ->
  failbit s = false -> exceptions s = true -> failbit s' = true -> t = true.
Proof.
  revert s cur rs. induction k as [|k IH]; intros s cur rs H Hgood He Hbad;
    simpl in H.
  - inversion H; subst. congruence.
  - pose proof (istream_read_exceptions (sizeof ExternalMemoryNode) s) as He1.
    destruct (istream_read (sizeof ExternalMemoryNode) s) as [bs s1].
    simpl in He1. rewrite He1, He, andb_true_r in H.
    destruct (failbit s1) eqn:Hs1; [now inversion H|].
    destruct (scan_records k s1 (store_object bs cur)) as [[rs' s2] t'] eqn:Hk.
    inversion H; subst. eapply IH; [eassumption|assumption|congruence|assumption].
Qed.

Lemma loadNodesFromFile_truncated (w : world) (fp hdr tail : list byte) :
  truncated_stream (sizeof ExternalMemoryNode) (input_stream w) fp hdr tail ->
  length fp = sizeof FingerPrint ->
  exists w' l,
    loadNodesFromFile w
    = (if exceptions (input_stream w) then Thrown ios_failure
       else Returned (le_decode hdr), w', l)
    /\ failbit (input_stream w') = true
    /\ (exceptions (input_stream w) = false ->
        length (node_array w')
        = (length (node_array w) + Z.to_nat (le_decode hdr))%nat).
Proof.
  intros (Hbuf & Hgood & Hhdr & Htail) Hfp.
  unfold loadNodesFromFile. unfold bind at 1.
  rewrite (read_whole _ _ _ fp (hdr ++ tail)) by assumption.
  rewrite Hfp, Nat.ltb_irrefl. unfold to_local.
  set (w1 := set_input_stream _ w).
  set (n := le_decode hdr) in *.
  set (s1 := mkIstream tail false (exceptions (input_stream w))).
  destruct (scan_records (Z.to_nat n) s1 (value_init ExternalMemoryNode))
    as [[rs s2] t] eqn:Hscan.
  assert (failbit s2 = true) as Hbad
    by (eapply scan_records_truncated; [eassumption|reflexivity|assumption]).
  assert (Hrest :
    (n <- read_unsigned ;;
     Write logINFO [Text "Importing n = "; Num n; Text " nodes "] ;;
     load_nodes_loop (Z.to_nat n) 0 (value_init ExternalMemoryNode) ;;
     ret n) w1
    = (if t then Thrown ios_failure else Returned n,
       after_nodes w s2 0 rs,
       [(logINFO, [Text "Importing n = "; Num n; Text " nodes "])])).
  { unfold bind at 1.
    rewrite (read_unsigned_whole w1 hdr tail); try assumption;
      try reflexivity.
    unfold bind, Write. rewrite load_nodes_loop_scan.
    subst w1. cbn [input_stream set_input_stream exceptions].
    fold s1. fold n. rewrite Hscan.
    destruct t; destruct w; reflexivity. }
  assert (t = exceptions (input_stream w)) as Ht.
  { destruct (exceptions (input_stream w)) eqn:He.
    - eapply scan_records_thrown; [eassumption|reflexivity..|assumption].
    - eapply scan_records_quiet; [eassumption|reflexivity]. }
  rewrite <- Ht. clear Ht.
  exists (after_nodes w s2 0 rs), (node_log fp n). split; [|split].
  - unfold bind at 1. unfold node_log, fingerprint_ok.
    destruct (TestContractor (of_bytes fp) GetValid); cbn [negb];
      [unfold ret at 1 | unfold Write at 1]; cbv beta iota;
      rewrite Hrest; destruct t; reflexivity.
  - assumption.
  - intros Hq. unfold after_nodes. cbn [node_array].
    rewrite length_app, length_map. f_equal.
    eapply scan_records_length. rewrite Hq in Hscan. eassumption.
Qed.

(** *** The properties of the node loader *)

(** C4.  For every node stream whose header declares [n] nodes and that
    holds [n] full records, the node loader, given the empty node container
    of the specification's lifecycle, returns [n]; the node container then
    has exactly [n] elements, and the element at position [i] is the public
    node built from the (lon, lat, external id) of record [i]. *)
Theorem node_loader_loads_declared_nodes
  (w : world) (fp hdr payload rest : list byte) :
  counted_stream (sizeof ExternalMemoryNode) (input_stream w)
                 fp hdr payload rest ->
  length fp = sizeof FingerPrint ->
  node_array w = [] ->
  exists w' log,
    loadNodesFromFile w = (Returned (le_decode hdr), w', log)
    /\ length (node_array w') = Z.to_nat (le_decode hdr)
    /\ forall i, (i < Z.to_nat (le_decode hdr))%nat ->
         nth_error (node_array w') i
         = Some (mkQueryNode
                   (lon (record_at payload i : ExternalMemoryNode))
                   (lat (record_at payload i : ExternalMemoryNode))
                   (node_id (record_at payload i : ExternalMemoryNode))).
Proof.
  intros Hstream Hfp Hempty.
  eexists. eexists.
  split; [apply (loadNodesFromFile_whole w fp hdr payload rest); assumption|].
  unfold after_nodes. cbn [node_array]. rewrite Hempty. cbn [app]. split.
  - now rewrite length_map, records_length.
  - intros i Hi. rewrite nth_error_map, records_nth by assumption.
    reflexivity.
Qed.

(** C5.  After the node loader, given empty barrier and traffic-light
    lists, returns [n]: every id in either list is below [n], both lists are
    strictly increasing, and, the stream holding the [n] records it
    declares, an id [i] is in a list exactly when the corresponding flag of
    record [i] is set. *)
Theorem node_loader_derived_lists
  (w w' : world) (n : Z) (log : list log_line) :
  barrier_node_list w = [] ->
  traffic_light_node_list w = [] ->
  loadNodesFromFile w = (Returned n, w', log) ->
  (Forall (fun id => 0 <= id < n) (barrier_node_list w')
   /\ Forall (fun id => 0 <= id < n) (traffic_light_node_list w')
   /\ StronglySorted Z.lt (barrier_node_list w')
   /\ StronglySorted Z.lt (traffic_light_node_list w'))
  /\ forall fp hdr payload rest,
       counted_stream (sizeof ExternalMemoryNode) (input_stream w)
                      fp hdr payload rest ->
       length fp = sizeof FingerPrint ->
       forall i,
         (In i (barrier_node_list w')
          <-> 0 <= i < n
              /\ barrier (record_at payload (Z.to_nat i)) = true)
         /\ (In i (traffic_light_node_list w')
             <-> 0 <= i < n
                 /\ traffic_lights (record_at payload (Z.to_nat i)) = true).
Proof.
  intros Hb Ht Hrun. split.
  - apply loadNodesFromFile_returned in Hrun as (Hn & rs & s & Hlen & ->).
    unfold after_nodes. cbn [barrier_node_list traffic_light_node_list].
    rewrite Hb, Ht. cbn [app].
    assert (forall flag, Forall (fun id => 0 <= id < n) (flagged_ids flag 0 rs))
      as Hbound.
    { intros flag. eapply Forall_impl; [|apply flagged_ids_bounds].
      simpl. intros id Hid. rewrite Hlen in Hid. lia. }
    repeat split; auto using flagged_ids_increasing.
  - intros fp hdr payload rest Hstream Hfp i.
    rewrite (loadNodesFromFile_whole w fp hdr payload rest) in Hrun
      by assumption.
    destruct Hstream as (_ & _ & Hhdr & _).
    pose proof (le_decode_unsigned hdr Hhdr) as Hrange.
    inversion Hrun; subst. unfold after_nodes.
    cbn [barrier_node_list traffic_light_node_list].
    rewrite Hb, Ht. cbn [app]. rewrite !flagged_ids_records.
    rewrite Z2Nat.id by lia. tauto.
Qed.

(** C8.  For every node/edge stream whose fingerprint does not pass the
    test but whose remaining bytes are well formed, the node loader returns
    the declared count and leaves what it leaves for a stream that differs
    in a passing fingerprint only; its log is the log of that run with the
    one warning before it. *)
Theorem node_loader_warns_on_fingerprint
  (w : world) (fp fp_valid hdr payload rest : list byte) :
  counted_stream (sizeof ExternalMemoryNode) (input_stream w)
                 fp hdr payload rest ->
  length fp = sizeof FingerPrint ->
  fingerprint_ok fp = false ->
  length fp_valid = sizeof FingerPrint ->
  fingerprint_ok fp_valid = true ->
  exists w' log,
    loadNodesFromFile w
    = (Returned (le_decode hdr), w', fingerprint_warning :: log)
    /\ loadNodesFromFile
         (set_input_stream
            (mkIstream (fp_valid ++ hdr ++ payload ++ rest) false
                       (exceptions (input_stream w))) w)
       = (Returned (le_decode hdr), w', log)
    /\ Forall (fun line => fst line = logINFO) log.
Proof.
  intros Hstream Hfp Hbad Hfpv Hok.
  rewrite (loadNodesFromFile_whole w fp hdr payload rest) by assumption.
  rewrite (loadNodesFromFile_whole _ fp_valid hdr payload rest);
    [| destruct Hstream as (_ & _ & Hhdr & Hpay); now repeat split
     | assumption].
  unfold node_log. rewrite Hbad, Hok. cbn [app].
  eexists. eexists. split; [reflexivity|]. split.
  - destruct w. reflexivity.
  - repeat constructor.
Qed.

(** C9.  The node loader appends to the three containers it is given and
    does not clear them.  The node container ends with exactly [n] elements
    only if it is empty on entry; the ids that are added to the two lists
    are positions among the records of the file, while the node of record
    [i] ends at position [length (node_array w) + i], which is not [i] when
    the node container is not empty on entry. *)
Theorem node_loader_appends
  (w : world) (fp hdr payload rest : list byte) :
  counted_stream (sizeof ExternalMemoryNode) (input_stream w)
                 fp hdr payload rest ->
  length fp = sizeof FingerPrint ->
  exists w' log (barriers lights : list Z) (nodes : list QueryNode),
    loadNodesFromFile w = (Returned (le_decode hdr), w', log)
    /\ node_array w' = node_array w ++ nodes
    /\ barrier_node_list w' = barrier_node_list w ++ barriers
    /\ traffic_light_node_list w' = traffic_light_node_list w ++ lights
    /\ (length (node_array w') = Z.to_nat (le_decode hdr)
        <-> node_array w = [])
    /\ forall i, (i < Z.to_nat (le_decode hdr))%nat ->
         nth_error (node_array w') (length (node_array w) + i)
         = Some (public_node (record_at payload i))
         /\ (In (Z.of_nat i) barriers
             <-> barrier (record_at payload i) = true)
         /\ (In (Z.of_nat i) lights
             <-> traffic_lights (record_at payload i) = true).
Proof.
  intros Hstream Hfp.
  set (n := Z.to_nat (le_decode hdr)).
  exists (after_nodes w (mkIstream rest false (exceptions (input_stream w))) 0
            (records n payload)),
         (node_log fp (le_decode hdr)),
         (flagged_ids barrier 0 (records n payload)),
         (flagged_ids traffic_lights 0 (records n payload)),
         (map public_node (records n payload)).
  split; [apply (loadNodesFromFile_whole w fp hdr payload rest); assumption|].
  unfold after_nodes.
  cbn [node_array barrier_node_list traffic_light_node_list].
  repeat split; try reflexivity.
  - rewrite length_app, length_map, records_length. intros Hlen.
    apply length_zero_iff_nil. lia.
  - intros ->. cbn [app]. now rewrite length_map, records_length.
  - rewrite nth_error_app2 by lia.
    replace (length (node_array w) + i - length (node_array w))%nat with i
      by lia.
    rewrite nth_error_map, records_nth by assumption. reflexivity.
  - rewrite flagged_ids_records, Nat2Z.id. tauto.
  - rewrite flagged_ids_records, Nat2Z.id. intros Hflag. split; [lia|assumption].
  - rewrite flagged_ids_records, Nat2Z.id. tauto.
  - rewrite flagged_ids_records, Nat2Z.id. intros Hflag. split; [lia|assumption].
Qed.

End NodeLoader.

(** ** The edge loader *)

Section EdgeLoader.

Context {L : Layout}.

Variable parallel_sort :
  (NodeBasedEdge -> NodeBasedEdge -> bool) ->
  list NodeBasedEdge -> list NodeBasedEdge.

(** *** The validation loop *)

Lemma validate_edges_loop_scan (tail pre : list NodeBasedEdge)
  (prev : NodeBasedEdge) (w : world) :
  edge_list w = pre ++ prev :: tail ->
  validate_edges_loop (length tail) (S (length pre)) w
  = (match first_violation prev tail with
     | None => Returned tt
     | Some msg => Aborted msg
     end, w, []).
Proof.
  revert pre prev. induction tail as [|e tail IH]; intros pre prev Hw.
  - reflexivity.
  - cbn [length validate_edges_loop first_violation].
    unfold bind at 1. unfold get. cbv beta iota.
    rewrite Hw.
    replace (nth (S (length pre)) (pre ++ prev :: e :: tail)
                 (value_init NodeBasedEdge)) with e.
    2:{ rewrite app_nth2 by lia.
        now replace (S (length pre) - length pre)%nat with 1%nat by lia. }
    replace (nth (S (length pre) - 1) (pre ++ prev :: e :: tail)
                 (value_init NodeBasedEdge)) with prev.
    2:{ rewrite app_nth2 by lia.
        now replace (S (length pre) - 1 - length pre)%nat with 0%nat by lia. }
    specialize (IH (pre ++ [prev]) e).
    rewrite length_app in IH. cbn [length] in IH.
    replace (length pre + 1)%nat with (S (length pre)) in IH by lia.
    rewrite <- app_assoc in IH. specialize (IH Hw).
    unfold check_edge, edge_differs, BOOST_ASSERT_MSG.
    destruct (0 <? weight e); cbn [negb]; [|reflexivity].
    destruct (forward e); cbn [negb]; [|reflexivity].
    destruct (travel_mode e =? TRAVEL_MODE_INACCESSIBLE); cbn [negb];
      [reflexivity|].
    destruct (source e =? target e); cbn [negb]; [reflexivity|].
    destruct (negb (source e =? source prev) || negb (target e =? target prev));
      cbn [negb]; [|reflexivity].
    unfold bind, ret. rewrite IH. reflexivity.
Qed.

Lemma validate_edges_loop_outcome (w : world) :
  validate_edges_loop (length (edge_list w) - 1) 1 w
  = (match validation_outcome (edge_list w) with
     | None => Returned tt
     | Some msg => Aborted msg
     end, w, []).
Proof.
  destruct (edge_list w) as [|e0 l] eqn:Hw; [reflexivity|].
  cbn [length validation_outcome].
  replace (S (length l) - 1)%nat with (length l) by lia.
  apply (validate_edges_loop_scan l [] e0 w Hw).
Qed.

(** *** The edge loader on a stream that holds the records it declares *)

Lemma size_t_mul_small {T} `{Pod T} (m : Z) :
  0 <= m < 2 ^ 32 ->
  Z.to_nat (size_t_mul m (Z.of_nat (sizeof T))) = (Z.to_nat m * sizeof T)%nat.
Proof.
  intros Hm. pose proof (sizeof_bound (T := T)) as Hs. unfold size_t_mul.
  rewrite Z.mod_small by nia. rewrite Z2Nat.inj_mul by lia.
  now rewrite Nat2Z.id.
Qed.

(** The first four statements of the edge loader. *)
Lemma load_edges_block (w : world) (hdr payload rest : list byte)
  (A : Type) (k : Z -> M A) :
  counted_stream (sizeof NodeBasedEdge) (input_stream w) [] hdr payload rest ->
  (m <- read_unsigned ;;
   modify (fun w => set_edge_list (vector_resize (Z.to_nat m) (edge_list w)) w) ;;
   Write logINFO [Text " and "; Num m; Text " edges "] ;;
   read (Z.to_nat (size_t_mul m (Z.of_nat (sizeof NodeBasedEdge))))
        (fun bs w => set_edge_list (store_objects bs (edge_list w)) w) ;;
   k m) w
  = match k (le_decode hdr)
            (set_edge_list (records (Z.to_nat (le_decode hdr)) payload)
               (set_input_stream
                  (mkIstream rest false (exceptions (input_stream w))) w)) with
    | (r, w', l) => (r, w', edges_line (le_decode hdr) :: l)
    end.
Proof.
  intros (Hbuf & Hgood & Hhdr & Hpay). cbn [app] in Hbuf.
  pose proof (le_decode_unsigned hdr Hhdr) as Hm.
  unfold bind at 1.
  rewrite (read_unsigned_whole w hdr (payload ++ rest)) by assumption.
  unfold bind at 1. unfold modify at 1. cbv beta iota.
  unfold bind at 1. unfold Write at 1. cbv beta iota.
  unfold bind at 1.
  rewrite (read_whole _ _ _ payload rest);
    [| reflexivity | reflexivity | now rewrite size_t_mul_small].
  cbn [edge_list set_edge_list set_input_stream input_stream exceptions
       filesystem barrier_node_list traffic_light_node_list node_array
       restriction_list].
  rewrite store_objects_whole by (now rewrite vector_resize_length).
  rewrite vector_resize_length.
  destruct w; cbn [edge_list set_edge_list set_input_stream input_stream
       exceptions filesystem barrier_node_list traffic_light_node_list
       node_array restriction_list].
  destruct (k _ _) as [[r w'] l]. destruct r; reflexivity.
Qed.

Lemma loadEdgesFromFile_whole (NDEBUG : bool) (w : world)
  (hdr payload rest : list byte) :
  counted_stream (sizeof NodeBasedEdge) (input_stream w) [] hdr payload rest ->
  let m := le_decode hdr in
  let edges := records (Z.to_nat m) payload in
  let w1 := set_input_stream
              (mkIstream rest false (exceptions (input_stream w))) w in
  loadEdgesFromFile parallel_sort NDEBUG w
  = if NDEBUG then
      (Returned m, set_edge_list edges w1,
       [edges_line m; loaded_line (Z.to_nat m)])
    else
      match edges with
      | [] =>
          (Aborted "edge_list.size() > 0", set_edge_list [] w1, [edges_line m])
      | _ :: _ =>
          let sorted := parallel_sort edge_less edges in
          match validation_outcome sorted with
          | None =>
              (Returned m, set_edge_list sorted w1,
               [edges_line m; validating_line; loaded_line (length sorted)])
          | Some msg =>
              (Aborted msg, set_edge_list sorted w1,
               [edges_line m; validating_line])
          end
      end.
Proof.
  intros Hstream m edges w1. unfold loadEdgesFromFile.
  rewrite (load_edges_block w hdr payload rest _
             (fun m =>
                w <- get ;;
                BOOST_ASSERT NDEBUG (0 <? length (edge_list w))%nat
                             "edge_list.size() > 0" ;;
                (if NDEBUG then ret tt
                 else
                   Write logINFO [Text "Validating loaded edges..."] ;;
                   modify (fun w =>
                     set_edge_list (parallel_sort edge_less (edge_list w)) w) ;;
                   w <- get ;;
                   validate_edges_loop (length (edge_list w) - 1) 1) ;;
                w <- get ;;
                Write logINFO [Text "Graph loaded ok and has ";
                               Num (Z.of_nat (length (edge_list w)));
                               Text " edges"] ;;
                ret m)) by assumption.
  fold m. fold edges. fold w1.
  unfold bind at 1. unfold get at 1. cbv beta iota.
  destruct NDEBUG.
  - unfold bind, BOOST_ASSERT, ret, get, Write. cbn [app edge_list set_edge_list].
    unfold loaded_line, edges. now rewrite records_length.
  - unfold BOOST_ASSERT. cbn [edge_list set_edge_list].
    destruct edges as [|e edges'] eqn:Hedges.
    + reflexivity.
    + cbn [length Nat.ltb Nat.leb].
      unfold bind at 1. unfold ret at 1. cbv beta iota.
      unfold bind at 1. unfold bind at 1. unfold Write at 1. cbv beta iota.
      unfold bind at 1. unfold modify at 1. cbv beta iota.
      unfold bind at 1. unfold get at 1. cbv beta iota.
      rewrite validate_edges_loop_outcome.
      cbn [edge_list set_edge_list].
      destruct (validation_outcome (parallel_sort edge_less (e :: edges')));
        [reflexivity|].
      unfold bind, get, Write, ret.
      cbn [app edge_list set_edge_list]. destruct w1. reflexivity.
Qed.

(** *** What the validation accepts *)

Lemma edge_differs_key (e prev : NodeBasedEdge) :
  edge_differs e prev = true <-> edge_key e <> edge_key prev.
Proof.
  unfold edge_differs, edge_key.
  destruct (Z.eqb_spec (source e) (source prev)) as [Hs|Hs];
    destruct (Z.eqb_spec (target e) (target prev)) as [Ht|Ht]; simpl;
    split; try congruence; try (intros _; congruence).
Qed.

Lemma check_edge_None (e prev : NodeBasedEdge) :
  check_edge e prev = None
  <-> edge_ok e = true /\ edge_differs e prev = true.
Proof.
  unfold check_edge, edge_ok.
  destruct (0 <? weight e); simpl; [|split; [discriminate|intros [H _]; discriminate]].
  destruct (forward e); simpl; [|split; [discriminate|intros [H _]; discriminate]].
  destruct (travel_mode e =? TRAVEL_MODE_INACCESSIBLE); simpl;
    [split; [discriminate|intros [H _]; discriminate]|].
  destruct (source e =? target e); simpl;
    [split; [discriminate|intros [H _]; discriminate]|].
  destruct (edge_differs e prev); simpl;
    [split; auto|split; [discriminate|intros [_ H]; discriminate]].
Qed.

Lemma first_violation_None (prev : NodeBasedEdge) (l : list NodeBasedEdge) :
  first_violation prev l = None
  <-> forall i, (i < length l)%nat ->
        edge_ok (nth i l (value_init NodeBasedEdge)) = true
        /\ edge_differs (nth i l (value_init NodeBasedEdge))
                        (nth i (prev :: l) (value_init NodeBasedEdge)) = true.
Proof.
  revert prev. induction l as [|e l IH]; intros prev.
  - simpl. split; [intros _ i Hi; lia|reflexivity].
  - cbn [first_violation]. destruct (check_edge e prev) eqn:Hc.
    + split; [discriminate|]. intros H.
      specialize (H 0%nat ltac:(simpl; lia)). cbn [nth] in H.
      apply check_edge_None in H. congruence.
    + apply check_edge_None in Hc. rewrite IH. split.
      * intros H [|i] Hi; [exact Hc|]. apply (H i). simpl in Hi. lia.
      * intros H i Hi. apply (H (S i)). simpl. lia.
Qed.

Lemma validation_outcome_None (l : list NodeBasedEdge) :
  validation_outcome l = None
  <-> forall i, (1 <= i < length l)%nat ->
        edge_ok (nth i l (value_init NodeBasedEdge)) = true
        /\ edge_differs (nth i l (value_init NodeBasedEdge))
                        (nth (i - 1) l (value_init NodeBasedEdge)) = true.
Proof.
  destruct l as [|e0 l]; cbn [validation_outcome].
  - split; [intros _ i Hi; simpl in Hi; lia|reflexivity].
  - rewrite first_violation_None. split.
    + intros H i Hi. destruct i as [|i]; [lia|].
      replace (S i - 1)%nat with i by lia.
      apply (H i). simpl in Hi. lia.
    + intros H i Hi. specialize (H (S i) ltac:(simpl; lia)).
      now replace (S i - 1)%nat with i in H by lia.
Qed.

Lemma first_violation_valid (prev : NodeBasedEdge) (l : list NodeBasedEdge) :
  Forall (fun e => edge_ok e = true) l ->
  NoDup (map edge_key (prev :: l)) ->
  first_violation prev l = None.
Proof.
  revert prev. induction l as [|e l IH]; intros prev Hok Hnd; [reflexivity|].
  cbn [first_violation]. inversion Hok as [|? ? He Hl]; subst.
  assert (check_edge e prev = None) as ->.
  { apply check_edge_None. split; [assumption|]. apply edge_differs_key.
    cbn [map] in Hnd. inversion Hnd as [|? ? Hnotin _]; subst.
    intros Heq. apply Hnotin. left. assumption. }
  apply IH; [assumption|]. cbn [map] in *. now inversion Hnd.
Qed.

Lemma validation_outcome_valid (l : list NodeBasedEdge) :
  Forall (fun e => edge_ok e = true) l ->
  NoDup (map edge_key l) ->
  validation_outcome l = None.
Proof.
  destruct l as [|e0 l]; [reflexivity|]. intros Hok Hnd.
  apply first_violation_valid; [now inversion Hok|assumption].
Qed.

(** *** What the validation rejects in a sorted container *)

Lemma sorted_step_key_lt (a b : NodeBasedEdge) :
  edge_less b a = false -> edge_differs b a = true ->
  key_lt (edge_key a) (edge_key b).
Proof.
  unfold edge_less, edge_differs, key_lt, edge_key. cbn [fst snd].
  intros Hless Hdiff.
  apply orb_false_iff in Hless as [Hs Ht].
  apply Z.ltb_ge in Hs.
  destruct (Z.eqb_spec (source b) (source a)) as [Heq|Hne].
  - simpl in Ht, Hdiff. apply Z.ltb_ge in Ht.
    destruct (Z.eqb_spec (target b) (target a)); [discriminate|]. lia.
  - lia.
Qed.

Lemma key_lt_trans (a b c : Z * Z) : key_lt a b -> key_lt b c -> key_lt a c.
Proof.
  unfold key_lt. lia.
Qed.

Lemma key_lt_irrefl (a : Z * Z) : ~ key_lt a a.
Proof.
  unfold key_lt. lia.
Qed.

Lemma first_violation_sorted (prev : NodeBasedEdge) (l : list NodeBasedEdge) :
  Sorted (fun a b => edge_less b a = false) (prev :: l) ->
  first_violation prev l = None ->
  Sorted (fun a b => key_lt (edge_key a) (edge_key b)) (prev :: l).
Proof.
  revert prev. induction l as [|e l IH]; intros prev Hs Hv.
  - repeat constructor.
  - cbn [first_violation] in Hv.
    destruct (check_edge e prev) eqn:Hc; [discriminate|].
    apply check_edge_None in Hc as [_ Hd].
    inversion Hs as [|? ? Hs' Hrel]; subst.
    inversion Hrel as [|? ? Hle]; subst.
    constructor; [now apply IH|].
    constructor. now apply sorted_step_key_lt.
Qed.

Lemma increasing_keys_NoDup (l : list NodeBasedEdge) :
  StronglySorted (fun a b => key_lt (edge_key a) (edge_key b)) l ->
  NoDup (map edge_key l).
Proof.
  induction 1 as [|a l Hs IH Hall]; cbn [map]; constructor; [|assumption].
  intros Hin. apply in_map_iff in Hin as (b & Hkey & Hb).
  rewrite Forall_forall in Hall. specialize (Hall b Hb).
  rewrite Hkey in Hall. now apply key_lt_irrefl in Hall.
Qed.

Lemma validation_outcome_sorted (l : list NodeBasedEdge) :
  Sorted (fun a b => edge_less b a = false) l ->
  validation_outcome l = None ->
  NoDup (map edge_key l).
Proof.
  intros Hs Hv. apply increasing_keys_NoDup.
  apply Sorted_StronglySorted.
  - intros a b c. apply key_lt_trans.
  - destruct l as [|e0 l]; [constructor|]. now apply first_violation_sorted.
Qed.

Lemma equal_keys_not_NoDup (l : list NodeBasedEdge) (i j : nat)
  (a b : NodeBasedEdge) :
  (i < j)%nat -> nth_error l i = Some a -> nth_error l j = Some b ->
  edge_key a = edge_key b -> ~ NoDup (map edge_key l).
Proof.
  intros Hij Hi Hj Hkey Hnd.
  assert (i = j); [|lia].
  rewrite NoDup_nth_error in Hnd. apply Hnd.
  - rewrite length_map. apply nth_error_Some. congruence.
  - rewrite !nth_error_map, Hi, Hj. simpl. now rewrite Hkey.
Qed.

(** *** The edge loader on a stream that is cut short *)

Lemma loadEdgesFromFile_truncated (w : world) (hdr tail : list byte) :
  truncated_stream (sizeof NodeBasedEdge) (input_stream w) [] hdr tail ->
  exists w' l,
    loadEdgesFromFile parallel_sort true w
    = (if exceptions (input_stream w) then Thrown ios_failure
       else Returned (le_decode hdr), w', l)
    /\ failbit (input_stream w') = true
    /\ length (edge_list w') = Z.to_nat (le_decode hdr).
Proof.
  intros (Hbuf & Hgood & Hhdr & Htail). cbn [app] in Hbuf.
  pose proof (le_decode_unsigned hdr Hhdr) as Hm.
  unfold loadEdgesFromFile. unfold bind at 1.
  rewrite (read_unsigned_whole w hdr tail) by assumption.
  unfold bind at 1. unfold modify at 1. cbv beta iota.
  unfold bind at 1. unfold Write at 1. cbv beta iota.
  unfold bind at 1. unfold read at 1.
  rewrite istream_read_short;
    [| reflexivity
     | destruct w; cbn; rewrite size_t_mul_small by assumption; exact Htail].
  cbn [failbit exceptions andb input_stream set_input_stream set_edge_list
       edge_list].
  destruct (exceptions (input_stream w)).
  - eexists. eexists. split; [reflexivity|]. split; [reflexivity|].
    cbn [edge_list set_edge_list]. rewrite store_objects_length.
    apply vector_resize_length.
  - unfold bind, get, BOOST_ASSERT, ret, Write.
    eexists. eexists. split; [reflexivity|]. split; [reflexivity|].
    cbn [edge_list set_edge_list]. rewrite store_objects_length.
    apply vector_resize_length.
Qed.

(** *** The properties of the edge loader *)

Hypothesis parallel_sort_sorts : sorts edge_less (parallel_sort edge_less).

(** C3, as amended.  For every edge stream whose header declares [m] edges
    and that holds [m] full records, the edge loader returns [m] and leaves
    an edge container of exactly [m] elements, when the build is an
    optimised one, or when [m] is positive and the edges meet the
    invariants the validation checks. *)
Theorem edge_loader_loads_declared_edges
  (NDEBUG : bool) (w : world) (hdr payload rest : list byte) :
  counted_stream (sizeof NodeBasedEdge) (input_stream w) [] hdr payload rest ->
  NDEBUG = true
  \/ (0 < le_decode hdr
      /\ Forall (fun e => edge_ok e = true)
                (records (Z.to_nat (le_decode hdr)) payload)
      /\ NoDup (map edge_key (records (Z.to_nat (le_decode hdr)) payload))) ->
  exists w' log,
    loadEdgesFromFile parallel_sort NDEBUG w = (Returned (le_decode hdr), w', log)
    /\ length (edge_list w') = Z.to_nat (le_decode hdr).
Proof.
  intros Hstream Hcase.
  rewrite (loadEdgesFromFile_whole NDEBUG w hdr payload rest Hstream).
  cbv zeta.
  destruct Hcase as [-> | (Hm & Hok & Hnd)].
  - eexists. eexists. split; [reflexivity|].
    cbn [edge_list set_edge_list]. apply records_length.
  - destruct NDEBUG.
    + eexists. eexists. split; [reflexivity|].
      cbn [edge_list set_edge_list]. apply records_length.
    + destruct (parallel_sort_sorts (records (Z.to_nat (le_decode hdr)) payload))
        as [Hperm _].
      destruct (records (Z.to_nat (le_decode hdr)) payload) as [|e es] eqn:Hrec.
      * pose proof (records_length (T := NodeBasedEdge)
                      (Z.to_nat (le_decode hdr)) payload) as Hlen.
        rewrite Hrec in Hlen. simpl in Hlen. lia.
      * rewrite validation_outcome_valid.
        -- eexists. eexists. split; [reflexivity|].
           cbn [edge_list set_edge_list].
           rewrite <- (Permutation_length Hperm), <- Hrec.
           apply records_length.
        -- eapply Permutation_Forall; eassumption.
        -- eapply Permutation_NoDup; [|eassumption].
           now apply Permutation_map.
Qed.

(** C6.  For every edge list with two edges of the same (source, target)
    pair, loading with the validation enabled ends in a failed assertion,
    which aborts the process; with the validation disabled the loader
    returns and both edges are in the container. *)
Theorem edge_loader_rejects_duplicates
  (w : world) (hdr payload rest : list byte) (i j : nat) :
  counted_stream (sizeof NodeBasedEdge) (input_stream w) [] hdr payload rest ->
  (i < j < Z.to_nat (le_decode hdr))%nat ->
  edge_key (record_at payload i) = edge_key (record_at payload j) ->
  (exists msg w' log,
     loadEdgesFromFile parallel_sort false w = (Aborted msg, w', log))
  /\ (exists w' log,
        loadEdgesFromFile parallel_sort true w
        = (Returned (le_decode hdr), w', log)
        /\ nth_error (edge_list w') i = Some (record_at payload i)
        /\ nth_error (edge_list w') j = Some (record_at payload j)).
Proof.
  intros Hstream Hij Hkey. split.
  - rewrite (loadEdgesFromFile_whole false w hdr payload rest Hstream).
    cbv zeta.
    set (edges := records (Z.to_nat (le_decode hdr)) payload).
    assert (~ NoDup (map edge_key edges)) as Hdup.
    { apply (equal_keys_not_NoDup edges i j
               (record_at payload i) (record_at payload j));
        [lia| | |assumption]; apply records_nth; lia. }
    destruct (parallel_sort_sorts edges) as [Hperm Hsorted].
    destruct edges as [|e es] eqn:Hedges.
    + exfalso. apply Hdup. constructor.
    + destruct (validation_outcome (parallel_sort edge_less (e :: es)))
        as [msg|] eqn:Hv.
      * eexists. eexists. eexists. reflexivity.
      * exfalso. apply Hdup.
        eapply Permutation_NoDup;
          [apply Permutation_map, Permutation_sym; exact Hperm|].
        now apply validation_outcome_sorted.
  - rewrite (loadEdgesFromFile_whole true w hdr payload rest Hstream).
    cbv zeta. eexists. eexists. split; [reflexivity|].
    cbn [edge_list set_edge_list]. split; apply records_nth; lia.
Qed.

(** C10.  With the validation enabled and a stream of [m > 0] full
    records, the loader returns exactly when the edges at positions
    [1 .. m-1] of the sorted container pass the four checks on one edge and
    differ from the edge before them: the edge at position 0 is not
    subjected to the four checks.  A list of one edge therefore loads with
    no assertion failing, whatever the edge is. *)
Theorem validation_skips_first_sorted_edge
  (w w' : world) (hdr payload rest : list byte) (r : result Z)
  (log : list log_line) :
  counted_stream (sizeof NodeBasedEdge) (input_stream w) [] hdr payload rest ->
  0 < le_decode hdr ->
  loadEdgesFromFile parallel_sort false w = (r, w', log) ->
  Permutation (records (Z.to_nat (le_decode hdr)) payload) (edge_list w')
  /\ (r = Returned (le_decode hdr)
      <-> forall i, (1 <= i < length (edge_list w'))%nat ->
            edge_ok (nth i (edge_list w') (value_init NodeBasedEdge)) = true
            /\ edge_differs
                 (nth i (edge_list w') (value_init NodeBasedEdge))
                 (nth (i - 1) (edge_list w') (value_init NodeBasedEdge))
               = true)
  /\ (le_decode hdr = 1 ->
      r = Returned 1 /\ edge_list w' = [record_at payload 0]).
Proof.
  intros Hstream Hm Hrun.
  rewrite (loadEdgesFromFile_whole false w hdr payload rest Hstream) in Hrun.
  cbv zeta in Hrun.
  set (edges := records (Z.to_nat (le_decode hdr)) payload) in *.
  pose proof (records_length (T := NodeBasedEdge)
                (Z.to_nat (le_decode hdr)) payload) as Hlen.
  fold edges in Hlen.
  destruct (parallel_sort_sorts edges) as [Hperm _].
  assert (edge_list w' = parallel_sort edge_less edges
          /\ (r = Returned (le_decode hdr)
              <-> validation_outcome (parallel_sort edge_less edges) = None))
    as [Hlist Hr].
  { destruct edges as [|e es]; [simpl in Hlen; lia|].
    destruct (validation_outcome (parallel_sort edge_less (e :: es)));
      inversion Hrun; subst; cbn [edge_list set_edge_list];
      split; try reflexivity; split; congruence. }
  rewrite Hlist. split; [assumption|]. split.
  - rewrite Hr. apply validation_outcome_None.
  - intros Hone.
    assert (edges = [record_at payload 0]) as Hsingle.
    { unfold edges, records. rewrite Hone. reflexivity. }
    rewrite Hsingle in *.
    apply Permutation_length_1_inv in Hperm.
    rewrite Hperm in *. split; [|reflexivity].
    rewrite Hone in Hr. now apply Hr.
Qed.

End EdgeLoader.

(** ** The restriction loader *)

Section RestrictionLoader.

Context {L : Layout}.

(** C7.  For every restriction file whose fingerprint does not pass the
    test, the restriction loader, which opens the file with
    [VerifyFingerprint], fails with a format error raised on opening:
    nothing after the fingerprint is read, and the output list, like the
    rest of what the caller owns, is left as it was. *)
Theorem restriction_loader_fails_closed
  (w : world) (filename : string) (bytes : list byte) :
  filesystem w filename = Some bytes ->
  fingerprint_ok (firstn (sizeof FingerPrint) bytes) = false ->
  exists what w' log,
    loadRestrictionsFromFile filename w = (Thrown (format_error what), w', log)
    /\ FileReader_open filename VerifyFingerprint w
       = (Thrown (format_error what), w', log)
    /\ restriction_list w' = restriction_list w
    /\ w' = w.
Proof.
  intros Hfile Hbad.
  assert (exists what,
            FileReader_open filename VerifyFingerprint w
            = (Thrown (format_error what), w, [])) as [what Hopen].
  { unfold FileReader_open, bind, get. rewrite Hfile.
    unfold fingerprint_ok in Hbad.
    destruct (length bytes <? sizeof FingerPrint)%nat; [|rewrite Hbad];
      unfold throw; eexists; reflexivity. }
  exists what, w, []. unfold loadRestrictionsFromFile, bind at 1.
  rewrite Hopen. repeat split.
Qed.

(** The restriction loader on a file that is cut short. *)
Lemma loadRestrictionsFromFile_truncated
  (w : world) (filename : string) (fp hdr tail : list byte) :
  filesystem w filename = Some (fp ++ hdr ++ tail) ->
  length fp = sizeof FingerPrint ->
  fingerprint_ok fp = true ->
  length hdr = sizeof_unsigned ->
  (length tail < Z.to_nat (le_decode hdr) * sizeof TurnRestriction)%nat ->
  exists what w' log,
    loadRestrictionsFromFile filename w = (Thrown (format_error what), w', log).
Proof.
  intros Hfile Hfp Hok Hhdr Htail.
  pose proof (le_decode_unsigned hdr Hhdr) as Hm.
  unfold loadRestrictionsFromFile, bind at 1.
  unfold FileReader_open, bind at 1, get at 1. cbv beta iota.
  rewrite Hfile, length_app, Hfp.
  destruct (Nat.ltb_spec (sizeof FingerPrint + length (hdr ++ tail))
                         (sizeof FingerPrint)); [lia|].
  rewrite firstn_app, skipn_app, <- Hfp, Nat.sub_diag, firstn_all, skipn_all.
  cbn [firstn skipn app]. rewrite app_nil_r.
  unfold fingerprint_ok in Hok. rewrite Hok. unfold ret at 1. cbv beta iota.
  unfold bind at 1, ReadElementCount32 at 1. cbn [reader_bytes reader_filename].
  rewrite length_app, Hhdr.
  destruct (Nat.ltb_spec (sizeof_unsigned + length tail) sizeof_unsigned);
    [lia|].
  rewrite firstn_app, skipn_app, <- Hhdr, Nat.sub_diag, firstn_all, skipn_all.
  cbn [firstn skipn app]. rewrite app_nil_r.
  unfold ret at 1. cbv beta iota.
  unfold bind at 1, modify at 1. cbv beta iota.
  unfold bind at 1.
  destruct (Z.ltb_spec 0 (le_decode hdr)); [|lia].
  unfold bind at 1, ReadInto. cbn [reader_bytes].
  destruct (Z.ltb_spec (Z.of_nat (length tail))
              (size_t_mul (le_decode hdr) (Z.of_nat (sizeof TurnRestriction))))
    as [_|Hge].
  - unfold throw. eexists. eexists. eexists. reflexivity.
  - exfalso. pose proof (sizeof_bound (T := TurnRestriction)) as Hs.
    unfold size_t_mul in Hge. rewrite Z.mod_small in Hge by nia.
    apply Nat2Z.inj_lt in Htail.
    rewrite Nat2Z.inj_mul, Z2Nat.id in Htail by lia. lia.
Qed.

End RestrictionLoader.

(** ** The statements on the sample platform *)

Module SampleRuns.

Import Sample.

(** *** Insertion sort meets the contract of the sorting routine *)

Lemma edge_less_asym (a b : NodeBasedEdge) :
  edge_less a b = true -> edge_less b a = false.
Proof.
  unfold edge_less. intros H.
  apply orb_true_iff in H as [H | H].
  - apply Z.ltb_lt in H. apply orb_false_iff. split.
    + apply Z.ltb_ge. lia.
    + apply andb_false_iff. left. apply Z.eqb_neq. lia.
  - apply andb_true_iff in H as [Hs Ht].
    apply Z.eqb_eq in Hs. apply Z.ltb_lt in Ht. apply orb_false_iff. split.
    + apply Z.ltb_ge. lia.
    + apply andb_false_iff. right. apply Z.ltb_ge. lia.
Qed.

Lemma insert_perm (x : NodeBasedEdge) (l : list NodeBasedEdge) :
  Permutation (x :: l) (insert edge_less x l).
Proof.
  induction l as [|y l IH]; simpl; [reflexivity|].
  destruct (edge_less x y); [reflexivity|].
  rewrite perm_swap. now constructor.
Qed.

Lemma insert_sorted (x : NodeBasedEdge) (l : list NodeBasedEdge) :
  Sorted (fun a b => edge_less b a = false) l ->
  Sorted (fun a b => edge_less b a = false) (insert edge_less x l).
Proof.
  induction l as [|y l IH]; intros Hs; simpl.
  - repeat constructor.
  - destruct (edge_less x y) eqn:Hxy.
    + constructor; [assumption|]. constructor. now apply edge_less_asym.
    + inversion Hs as [|? ? Hs' Hrel]; subst.
      constructor; [now apply IH|].
      destruct l as [|z l]; simpl.
      * now constructor.
      * destruct (edge_less x z); constructor; [assumption|].
        now inversion Hrel.
Qed.

Lemma sort_sorts : sorts edge_less (sort edge_less).
Proof.
  intros l. induction l as [|x l [IHp IHs]]; simpl.
  - split; constructor.
  - split.
    + rewrite <- insert_perm. now constructor.
    + now apply insert_sorted.
Qed.

(** *** The node loader *)

Lemma node_loader_loads_declared_nodes_witness :
  let w := fresh (stream_of (u32 magic ++ u32 2 ++ two_nodes)) in
  exists w' log,
    loadNodesFromFile w = (Returned (le_decode (u32 2)), w', log)
    /\ length (node_array w') = Z.to_nat (le_decode (u32 2))
    /\ forall i, (i < Z.to_nat (le_decode (u32 2)))%nat ->
         nth_error (node_array w') i
         = Some (mkQueryNode
                   (lon (record_at two_nodes i : ExternalMemoryNode))
                   (lat (record_at two_nodes i : ExternalMemoryNode))
                   (node_id (record_at two_nodes i : ExternalMemoryNode))).
Proof.
  intros w.
  apply (node_loader_loads_declared_nodes w (u32 magic) (u32 2) two_nodes []).
  - unfold counted_stream. repeat split; reflexivity.
  - reflexivity.
  - reflexivity.
Defined.

Lemma node_loader_derived_lists_witness :
  let w := fresh (stream_of (u32 magic ++ u32 2 ++ two_nodes)) in
  let w' := snd (fst (loadNodesFromFile w)) in
  (barrier_node_list w' = [0] /\ traffic_light_node_list w' = [1])
  /\ (Forall (fun id => 0 <= id < 2) (barrier_node_list w')
      /\ Forall (fun id => 0 <= id < 2) (traffic_light_node_list w')
      /\ StronglySorted Z.lt (barrier_node_list w')
      /\ StronglySorted Z.lt (traffic_light_node_list w'))
  /\ forall fp hdr payload rest,
       counted_stream (sizeof ExternalMemoryNode) (input_stream w)
                      fp hdr payload rest ->
       length fp = sizeof FingerPrint ->
       forall i,
         (In i (barrier_node_list w')
          <-> 0 <= i < 2
              /\ barrier (record_at payload (Z.to_nat i)) = true)
         /\ (In i (traffic_light_node_list w')
             <-> 0 <= i < 2
                 /\ traffic_lights (record_at payload (Z.to_nat i)) = true).
Proof.
  intros w w'. split; [split; reflexivity|].
  apply (node_loader_derived_lists w w' 2 (snd (loadNodesFromFile w)));
    reflexivity.
Defined.

Lemma node_loader_warns_on_fingerprint_witness :
  let w := fresh (stream_of (u32 0 ++ u32 2 ++ two_nodes)) in
  exists w' log,
    loadNodesFromFile w
    = (Returned (le_decode (u32 2)), w', fingerprint_warning :: log)
    /\ loadNodesFromFile
         (set_input_stream
            (mkIstream (u32 magic ++ u32 2 ++ two_nodes ++ []) false
                       (exceptions (input_stream w))) w)
       = (Returned (le_decode (u32 2)), w', log)
    /\ Forall (fun line => fst line = logINFO) log.
Proof.
  intros w.
  apply (node_loader_warns_on_fingerprint
           w (u32 0) (u32 magic) (u32 2) two_nodes []).
  - unfold counted_stream. repeat split; reflexivity.
  - reflexivity.
  - reflexivity.
  - reflexivity.
  - reflexivity.
Defined.

Lemma node_loader_appends_witness :
  let w := mkWorld (fun _ => None)
                   (stream_of (u32 magic ++ u32 2 ++ two_nodes))
                   [] [] [mkQueryNode 1 2 3] [] [] in
  (exists w' log (barriers lights : list Z) (nodes : list QueryNode),
     loadNodesFromFile w = (Returned (le_decode (u32 2)), w', log)
     /\ node_array w' = node_array w ++ nodes
     /\ barrier_node_list w' = barrier_node_list w ++ barriers
     /\ traffic_light_node_list w' = traffic_light_node_list w ++ lights
     /\ (length (node_array w') = Z.to_nat (le_decode (u32 2))
         <-> node_array w = [])
     /\ forall i, (i < Z.to_nat (le_decode (u32 2)))%nat ->
          nth_error (node_array w') (length (node_array w) + i)
          = Some (public_node (record_at two_nodes i))
          /\ (In (Z.of_nat i) barriers
              <-> barrier (record_at two_nodes i) = true)
          /\ (In (Z.of_nat i) lights
              <-> traffic_lights (record_at two_nodes i) = true))
  /\ (let w' := snd (fst (loadNodesFromFile w)) in
      barrier_node_list w' = [0]
      /\ nth_error (node_array w') 0 = Some (mkQueryNode 1 2 3)
      /\ nth_error (node_array w') 1 = Some (mkQueryNode 10 20 7)
      /\ length (node_array w') = 3%nat).
Proof.
  intros w. split.
  - apply (node_loader_appends w (u32 magic) (u32 2) two_nodes []).
    + unfold counted_stream. repeat split; reflexivity.
    + reflexivity.
  - repeat split; reflexivity.
Defined.

(** C1, on a node stream and an edge stream that are cut short.  The node
    stream declares two nodes and holds one record; the edge stream declares
    two edges and holds one record; both streams have the default exception
    mask.  Both loaders return the declared count: the second node repeats
    the first and is listed as a barrier, the second edge is a
    default-constructed one.  No error reaches the caller; all that is left
    of the short read is the [failbit] of the stream. *)
Theorem truncated_streams_load_silently :
  loadNodesFromFile
    (fresh (stream_of (u32 magic ++ u32 2 ++ node_bytes 10 20 7 true false)))
  = (Returned 2,
     mkWorld (fun _ => None) (mkIstream [] true false)
             [0; 1] [] [mkQueryNode 10 20 7; mkQueryNode 10 20 7] [] [],
     [(logINFO, [Text "Importing n = "; Num 2; Text " nodes "])])
  /\ loadEdgesFromFile (sort) true
       (fresh (stream_of (u32 2 ++ good_edge 0 1)))
     = (Returned 2,
        mkWorld (fun _ => None) (mkIstream [] true false) [] [] []
                [mkNodeBasedEdge 0 1 5 true 1;
                 mkNodeBasedEdge (2 ^ 32 - 1) (2 ^ 32 - 1) 0 false 0] [],
        [edges_line 2; loaded_line 2]).
Proof.
  split; reflexivity.
Qed.

(** *** The edge loader *)

(** C3, as stated, fails on a stream that declares no edge when the build
    is not an optimised one: the header and its zero records are there, and
    [BOOST_ASSERT(edge_list.size() > 0)] aborts the process. *)
Lemma edge_loader_aborts_on_empty_list :
  let w := fresh (stream_of (u32 0)) in
  counted_stream (sizeof NodeBasedEdge) (input_stream w) [] (u32 0) [] []
  /\ le_decode (u32 0) = 0
  /\ loadEdgesFromFile (sort) false w
     = (Aborted "edge_list.size() > 0", fresh (stream_of []), [edges_line 0])
  /\ ~ (exists w' log,
          loadEdgesFromFile (sort) false w
          = (Returned (le_decode (u32 0)), w', log)
          /\ length (edge_list w') = Z.to_nat (le_decode (u32 0))).
Proof.
  intros w. split; [|split; [|split]].
  - unfold counted_stream. repeat split; reflexivity.
  - reflexivity.
  - reflexivity.
  - intros (w' & log & Hrun & _). discriminate Hrun.
Qed.

Lemma edge_loader_loads_declared_edges_witness :
  let w := fresh (stream_of (u32 2 ++ good_edge 1 0 ++ good_edge 0 1)) in
  exists w' log,
    loadEdgesFromFile (sort) false w = (Returned (le_decode (u32 2)), w', log)
    /\ length (edge_list w') = Z.to_nat (le_decode (u32 2)).
Proof.
  intros w.
  apply (edge_loader_loads_declared_edges
           (sort) sort_sorts false w (u32 2)
           (good_edge 1 0 ++ good_edge 0 1) []).
  - unfold counted_stream. repeat split; reflexivity.
  - right. split; [reflexivity|]. split.
    + repeat constructor.
    + repeat constructor; simpl; intuition discriminate.
Defined.

Lemma edge_loader_rejects_duplicates_witness :
  let w := fresh (stream_of (u32 2 ++ good_edge 0 1 ++ good_edge 0 1)) in
  let payload := good_edge 0 1 ++ good_edge 0 1 in
  (exists msg w' log,
     loadEdgesFromFile (sort) false w = (Aborted msg, w', log))
  /\ (exists w' log,
        loadEdgesFromFile (sort) true w
        = (Returned (le_decode (u32 2)), w', log)
        /\ nth_error (edge_list w') 0 = Some (record_at payload 0)
        /\ nth_error (edge_list w') 1 = Some (record_at payload 1)).
Proof.
  intros w payload.
  apply (edge_loader_rejects_duplicates
           (sort) sort_sorts w (u32 2) payload [] 0 1).
  - unfold counted_stream. repeat split; reflexivity.
  - vm_compute. lia.
  - reflexivity.
Defined.

Lemma validation_skips_first_sorted_edge_witness :
  let w := fresh (stream_of (u32 1 ++ bad_edge)) in
  let run := loadEdgesFromFile (sort) false w in
  let r := fst (fst run) in
  let w' := snd (fst run) in
  (Permutation (records (Z.to_nat (le_decode (u32 1))) bad_edge) (edge_list w')
   /\ (r = Returned (le_decode (u32 1))
       <-> forall i, (1 <= i < length (edge_list w'))%nat ->
             edge_ok (nth i (edge_list w') (value_init NodeBasedEdge)) = true
             /\ edge_differs
                  (nth i (edge_list w') (value_init NodeBasedEdge))
                  (nth (i - 1) (edge_list w') (value_init NodeBasedEdge))
                = true)
   /\ (le_decode (u32 1) = 1 ->
       r = Returned 1 /\ edge_list w' = [record_at bad_edge 0]))
  /\ r = Returned 1
  /\ edge_list w' = [mkNodeBasedEdge 0 0 0 false TRAVEL_MODE_INACCESSIBLE]
  /\ edge_ok (mkNodeBasedEdge 0 0 0 false TRAVEL_MODE_INACCESSIBLE) = false.
Proof.
  intros w run r w'. split.
  - apply (validation_skips_first_sorted_edge
             (sort) sort_sorts w w' (u32 1) bad_edge [] r (snd run)).
    + unfold counted_stream. repeat split; reflexivity.
    + reflexivity.
    + reflexivity.
  - repeat split; reflexivity.
Defined.

(** C2, on a list in which the self-loop comes first in the sorted order.
    The stream declares and holds two well-formed edges but for one being
    the self-loop 0 -> 0.  With the validation enabled the loader returns 2:
    the sort puts the self-loop at position 0 and the loop of assertions
    starts at position 1.  A single self-loop loads as well. *)
Theorem self_loop_passes_validation :
  loadEdgesFromFile (sort) false
    (fresh (stream_of (u32 2 ++ good_edge 0 1 ++ good_edge 0 0)))
  = (Returned 2,
     mkWorld (fun _ => None) (mkIstream [] false false) [] [] []
             [mkNodeBasedEdge 0 0 5 true 1; mkNodeBasedEdge 0 1 5 true 1] [],
     [edges_line 2; validating_line; loaded_line 2])
  /\ fst (fst (loadEdgesFromFile (sort) false
                 (fresh (stream_of (u32 1 ++ good_edge 0 0)))))
     = Returned 1
  /\ fst (fst (loadEdgesFromFile (sort) true
                 (fresh (stream_of (u32 2 ++ good_edge 0 1 ++ good_edge 0 0)))))
     = Returned 2.
Proof.
  repeat split; reflexivity.
Qed.

(** *** The restriction loader *)

Lemma restriction_loader_fails_closed_witness :
  let bytes := u32 0 ++ u32 1 ++ u32 1 ++ u32 2 ++ u32 3 in
  let w := with_file "map.osrm.restrictions" bytes in
  exists what w' log,
    loadRestrictionsFromFile "map.osrm.restrictions" w
    = (Thrown (format_error what), w', log)
    /\ FileReader_open "map.osrm.restrictions" VerifyFingerprint w
       = (Thrown (format_error what), w', log)
    /\ restriction_list w' = restriction_list w
    /\ w' = w.
Proof.
  intros bytes w.
  apply (restriction_loader_fails_closed w "map.osrm.restrictions" bytes).
  - reflexivity.
  - reflexivity.
Defined.

End SampleRuns.

(** ** More on the node loader *)

Section NodeLoaderOutcomes.

Context {L : Layout}.

Lemma flagged_ids_length (flag : ExternalMemoryNode -> bool) (i : Z)
  (rs : list ExternalMemoryNode) :
  (length (flagged_ids flag i rs) <= length rs)%nat.
Proof.
  revert i. induction rs as [|r rs IH]; intros i; simpl; [lia|].
  rewrite length_app. specialize (IH (i + 1)).
  destruct (flag r); simpl; lia.
Qed.

Lemma after_nodes_nil (w : world) (s : istream) (i : Z) :
  after_nodes w s i [] = set_input_stream s w.
Proof.
  destruct w. unfold after_nodes, set_input_stream. simpl.
  now rewrite !app_nil_r.
Qed.

(** Whatever its outcome, the node loader leaves the world it was given
    with another stream and with records added to the three containers. *)
Lemma loadNodesFromFile_shape (w : world) :
  exists s rs, snd (fst (loadNodesFromFile w)) = after_nodes w s 0 rs.
Proof.
  unfold loadNodesFromFile. unfold bind at 1. unfold read at 1.
  destruct (istream_read (sizeof FingerPrint) (input_stream w)) as [fp s1].
  unfold to_local.
  destruct (failbit s1 && exceptions s1);
    [exists s1, []; now rewrite after_nodes_nil|].
  destruct (length fp <? sizeof FingerPrint)%nat;
    [exists s1, []; now rewrite after_nodes_nil|].
  unfold bind at 1.
  assert (exists lw,
    (if negb (TestContractor (of_bytes fp) GetValid)
     then Write logWARNING
            [Text ".osrm was prepared with different build.";
             Text "Reprocess to get rid of this warning."]
     else ret tt) (set_input_stream s1 w)
    = (Returned tt, set_input_stream s1 w, lw)) as [lw ->].
  { destruct (negb _); eexists; reflexivity. }
  unfold bind at 1. unfold read_unsigned at 1. unfold bind at 1.
  unfold read at 1. cbn [input_stream set_input_stream].
  destruct (istream_read sizeof_unsigned s1) as [bs s2]. unfold to_local.
  destruct (failbit s2 && exceptions s2);
    [exists s2, []; rewrite after_nodes_nil; now destruct w|].
  destruct (length bs <? sizeof_unsigned)%nat;
    [exists s2, []; rewrite after_nodes_nil; now destruct w|].
  unfold ret at 1. cbv beta iota.
  unfold bind at 1. unfold Write at 1. cbv beta iota.
  unfold bind at 1. rewrite load_nodes_loop_scan.
  cbn [input_stream set_input_stream].
  destruct (scan_records _ _ _) as [[rs s3] t].
  exists s3, rs. destruct t; destruct w; reflexivity.
Qed.

(** X1.  In every outcome (return, exception, undefined behaviour) the node
    loader keeps what the three containers held on entry, in place and in
    order, adds at most one id to each list per node it adds, and leaves
    the edge list and the restriction list alone. *)
Theorem node_loader_keeps_existing_entries (w : world) :
  let w' := snd (fst (loadNodesFromFile w)) in
  exists (nodes : list QueryNode) (barriers lights : list Z),
    node_array w' = node_array w ++ nodes
    /\ barrier_node_list w' = barrier_node_list w ++ barriers
    /\ traffic_light_node_list w' = traffic_light_node_list w ++ lights
    /\ (length barriers <= length nodes)%nat
    /\ (length lights <= length nodes)%nat
    /\ edge_list w' = edge_list w
    /\ restriction_list w' = restriction_list w.
Proof.
  intros w'. destruct (loadNodesFromFile_shape w) as (s & rs & Hshape).
  subst w'. rewrite Hshape. unfold after_nodes.
  exists (map public_node rs), (flagged_ids barrier 0 rs),
         (flagged_ids traffic_lights 0 rs).
  cbn [node_array barrier_node_list traffic_light_node_list edge_list
       restriction_list].
  rewrite length_map. repeat split; auto using flagged_ids_length.
Qed.

(** The node loader on a stream that cannot supply the fingerprint and the
    count. *)
Lemma loadNodesFromFile_short_header (w : world) :
  failbit (input_stream w) = true
  \/ (length (rdbuf (input_stream w)) < sizeof FingerPrint + sizeof_unsigned)%nat ->
  exists s l,
    loadNodesFromFile w
    = (if exceptions (input_stream w) then Thrown ios_failure else Undefined,
       set_input_stream s w, l)
    /\ failbit s = true.
Proof.
  intros Hcase. unfold loadNodesFromFile. unfold bind at 1. unfold read at 1.
  pose proof (sizeof_pos (T := FingerPrint)) as Hpos.
  destruct (failbit (input_stream w)) eqn:Hfail.
  - rewrite istream_read_failed by assumption. rewrite Hfail.
    unfold to_local. cbn [andb length].
    destruct (exceptions (input_stream w)).
    + eexists. eexists. split; [reflexivity|assumption].
    + assert ((length (@nil byte) <? sizeof FingerPrint)%nat = true) as ->
        by (apply Nat.ltb_lt; simpl; lia).
      unfold undefined. eexists. eexists. split; [reflexivity|assumption].
  - destruct Hcase as [|Hlen]; [discriminate|].
    destruct (Nat.ltb_spec (length (rdbuf (input_stream w)))
                           (sizeof FingerPrint)) as [Hshort|Hlong].
    + rewrite istream_read_short by assumption.
      cbn [failbit exceptions andb]. unfold to_local.
      destruct (exceptions (input_stream w)).
      * eexists. eexists. split; reflexivity.
      * assert ((length (rdbuf (input_stream w)) <? sizeof FingerPrint)%nat
                = true) as -> by (now apply Nat.ltb_lt).
        unfold undefined. eexists. eexists. split; reflexivity.
    + rewrite (istream_read_whole _ _
                 (firstn (sizeof FingerPrint) (rdbuf (input_stream w)))
                 (skipn (sizeof FingerPrint) (rdbuf (input_stream w))))
        ; [|assumption|now rewrite firstn_skipn|rewrite length_firstn; lia].
      cbn [failbit andb]. unfold to_local.
      assert ((length (firstn (sizeof FingerPrint) (rdbuf (input_stream w)))
                <? sizeof FingerPrint)%nat = false) as ->
        by (apply Nat.ltb_ge; rewrite length_firstn; lia).
      unfold bind at 1.
      assert (forall w1 : world, exists lw,
        (if negb (TestContractor
                    (of_bytes (firstn (sizeof FingerPrint)
                                      (rdbuf (input_stream w)))) GetValid)
         then Write logWARNING
                [Text ".osrm was prepared with different build.";
                 Text "Reprocess to get rid of this warning."]
         else ret tt) w1
        = (Returned tt, w1, lw)) as Hwarn.
      { intros w1. destruct (negb _); eexists; reflexivity. }
      destruct (Hwarn (set_input_stream
                  (mkIstream (skipn (sizeof FingerPrint)
                                    (rdbuf (input_stream w))) false
                             (exceptions (input_stream w))) w)) as [lw ->].
      unfold bind at 1. unfold read_unsigned at 1. unfold bind at 1.
      unfold read at 1. cbn [input_stream set_input_stream].
      rewrite istream_read_short;
        [|reflexivity|cbn [rdbuf]; rewrite length_skipn; lia].
      cbn [failbit exceptions andb rdbuf]. unfold to_local.
      destruct (exceptions (input_stream w)).
      * eexists. eexists. split; [destruct w; reflexivity|reflexivity].
      * assert ((length (skipn (sizeof FingerPrint) (rdbuf (input_stream w)))
                  <? sizeof_unsigned)%nat = true) as ->
          by (apply Nat.ltb_lt; rewrite length_skipn; lia).
        unfold undefined.
        eexists. eexists. split; [destruct w; reflexivity|reflexivity].
Qed.

(** A good stream that supplies the header either holds the records the
    header declares or is cut short. *)
Lemma stream_cases (front size : nat) (s : istream) :
  failbit s = false ->
  (front + sizeof_unsigned <= length (rdbuf s))%nat ->
  exists fp hdr tail,
    length fp = front
    /\ ((exists payload rest,
           tail = payload ++ rest
           /\ counted_stream size s fp hdr payload rest)
        \/ truncated_stream size s fp hdr tail).
Proof.
  intros Hgood Hlen.
  set (fp := firstn front (rdbuf s)).
  set (hdr := firstn sizeof_unsigned (skipn front (rdbuf s))).
  set (tail := skipn sizeof_unsigned (skipn front (rdbuf s))).
  assert (rdbuf s = fp ++ hdr ++ tail) as Hbuf.
  { unfold fp, hdr, tail. now rewrite !firstn_skipn. }
  assert (length hdr = sizeof_unsigned) as Hhdr.
  { unfold hdr. rewrite length_firstn, length_skipn. lia. }
  exists fp, hdr, tail. split.
  { unfold fp. rewrite length_firstn. lia. }
  destruct (Nat.ltb_spec (length tail) (Z.to_nat (le_decode hdr) * size))
    as [Hshort|Hlong].
  - right. unfold truncated_stream. auto.
  - left. exists (firstn (Z.to_nat (le_decode hdr) * size) tail),
                 (skipn (Z.to_nat (le_decode hdr) * size) tail).
    split; [now rewrite firstn_skipn|].
    unfold counted_stream. rewrite firstn_skipn.
    repeat split; auto. rewrite length_firstn. lia.
Qed.

(** X2.  When the caller has enabled exceptions on the stream, the node
    loader either lets [std::ios_base::failure] through or returns the count
    of a stream that held the fingerprint, the count and all the records
    the count declares, and has added exactly these records. *)
Theorem node_loader_with_exceptions
  (w w' : world) (r : result Z) (log : list log_line) :
  exceptions (input_stream w) = true ->
  loadNodesFromFile w = (r, w', log) ->
  r = Thrown ios_failure
  \/ exists fp hdr payload rest,
       counted_stream (sizeof ExternalMemoryNode) (input_stream w)
                      fp hdr payload rest
       /\ length fp = sizeof FingerPrint
       /\ r = Returned (le_decode hdr)
       /\ node_array w'
          = node_array w
            ++ map public_node (records (Z.to_nat (le_decode hdr)) payload).
Proof.
  intros Hexc Hrun.
  destruct (failbit (input_stream w)) eqn:Hfail.
  { destruct (loadNodesFromFile_short_header w (or_introl Hfail))
      as (s & l & Hshort & _).
    rewrite Hexc in Hshort. left. congruence. }
  destruct (Nat.ltb_spec (length (rdbuf (input_stream w)))
                         (sizeof FingerPrint + sizeof_unsigned)) as [Hlt|Hge].
  { destruct (loadNodesFromFile_short_header w (or_intror Hlt))
      as (s & l & Hshort & _).
    rewrite Hexc in Hshort. left. congruence. }
  destruct (stream_cases (sizeof FingerPrint) (sizeof ExternalMemoryNode)
              (input_stream w) Hfail Hge)
    as (fp & hdr & tail & Hfp & [(payload & rest & _ & Hwhole) | Htrunc]).
  - right. exists fp, hdr, payload, rest.
    rewrite (loadNodesFromFile_whole w fp hdr payload rest Hwhole Hfp) in Hrun.
    inversion Hrun; subst. unfold after_nodes. cbn [node_array]. auto.
  - destruct (loadNodesFromFile_truncated w fp hdr tail Htrunc Hfp)
      as (w1 & l1 & Hthrow & _).
    rewrite Hexc in Hthrow. left. congruence.
Qed.

(** X3.  With the default exception mask, a stream that has failed already
    or ends before the fingerprint and the count are complete makes the
    node loader use a count that was never written: undefined behaviour.
    Nothing has been added to the containers by then. *)
Theorem node_loader_without_header (w : world) :
  exceptions (input_stream w) = false ->
  failbit (input_stream w) = true
  \/ (length (rdbuf (input_stream w)) < sizeof FingerPrint + sizeof_unsigned)%nat ->
  exists w' log,
    loadNodesFromFile w = (Undefined, w', log)
    /\ failbit (input_stream w') = true
    /\ node_array w' = node_array w
    /\ barrier_node_list w' = barrier_node_list w
    /\ traffic_light_node_list w' = traffic_light_node_list w.
Proof.
  intros Hexc Hcase.
  destruct (loadNodesFromFile_short_header w Hcase) as (s & l & Hrun & Hs).
  rewrite Hexc in Hrun. exists (set_input_stream s w), l.
  split; [assumption|]. destruct w. repeat split. assumption.
Qed.

(** *** What a stream that ends between two records leaves *)

Lemma scan_records_drained (k : nat) (s : istream) (cur : ExternalMemoryNode) :
  exceptions s = false ->
  failbit s = true \/ rdbuf s = [] ->
  exists s', scan_records k s cur = (repeat cur k, s', false)
             /\ (failbit s = true \/ (0 < k)%nat -> failbit s' = true).
Proof.
  revert s. induction k as [|k IH]; intros s Hexc Hcase.
  - exists s. split; [reflexivity|]. intros [H|H]; [assumption|lia].
  - cbn [scan_records repeat].
    pose proof (sizeof_pos (T := ExternalMemoryNode)) as Hpos.
    assert (exists s1, istream_read (sizeof ExternalMemoryNode) s = ([], s1)
                       /\ failbit s1 = true /\ exceptions s1 = false)
      as (s1 & -> & Hs1 & He1).
    { destruct (failbit s) eqn:Hfail.
      - rewrite istream_read_failed by assumption. now exists s.
      - destruct Hcase as [|Hnil]; [discriminate|].
        rewrite istream_read_short by (rewrite ?Hnil; simpl; auto).
        rewrite Hnil. eexists. split; [reflexivity|]. split; [reflexivity|].
        assumption. }
    rewrite Hs1, He1. cbn [andb store_object].
    destruct (IH s1 He1 (or_introl Hs1)) as (s' & -> & Hs').
    exists s'. split; [reflexivity|]. intros _. apply Hs'. now left.
Qed.

Lemma last_cons {A} (a d : A) (l : list A) : last (a :: l) d = last l a.
Proof.
  revert a d. induction l as [|b l IH]; intros a d; [reflexivity|].
  change (last (a :: b :: l) d) with (last (b :: l) d).
  now rewrite !IH.
Qed.

Lemma scan_records_split (k j : nat) (s : istream) (cur : ExternalMemoryNode)
  (payload rest : list byte) :
  failbit s = false ->
  rdbuf s = payload ++ rest ->
  length payload = (k * sizeof ExternalMemoryNode)%nat ->
  scan_records (k + j) s cur
  = match scan_records j (mkIstream rest false (exceptions s))
                       (last (records k payload) cur) with
    | (rs, s', t) => (records k payload ++ rs, s', t)
    end.
Proof.
  revert s cur payload.
  induction k as [|k IH]; intros s cur payload Hgood Hbuf Hlen.
  - destruct payload; [|discriminate]. simpl in Hbuf.
    cbn [Nat.add records chunks map last app].
    replace (mkIstream rest false (exceptions s)) with s
      by (destruct s; simpl in *; now subst).
    unfold records. cbn [chunks map last app].
    now destruct (scan_records j s cur) as [[rs s'] t].
  - simpl in Hlen. cbn [Nat.add scan_records].
    rewrite (istream_read_whole _ s
               (firstn (sizeof ExternalMemoryNode) payload)
               (skipn (sizeof ExternalMemoryNode) payload ++ rest));
      [|assumption|now rewrite app_assoc, firstn_skipn
       |rewrite length_firstn; lia].
    cbn [failbit andb].
    rewrite (IH _ _ (skipn (sizeof ExternalMemoryNode) payload));
      [|reflexivity|reflexivity|rewrite length_skipn; lia].
    cbn [exceptions]. unfold records. cbn [chunks map].
    rewrite last_cons.
    rewrite store_object_whole by (rewrite length_firstn; lia).
    now destruct (scan_records j _ _) as [[rs s'] t].
Qed.

(** X4.  With the default exception mask, a node stream that ends after
    [k] of the [n] records it declares makes the loader return [n] all the
    same: it adds the [k] records and then [n - k] copies of the last
    record it read (of a default-constructed record when [k = 0]), ids of
    the copies included, and leaves the stream failed. *)
Theorem node_loader_repeats_last_record
  (w : world) (fp hdr payload : list byte) (k : nat) :
  rdbuf (input_stream w) = fp ++ hdr ++ payload ->
  failbit (input_stream w) = false ->
  exceptions (input_stream w) = false ->
  length fp = sizeof FingerPrint ->
  length hdr = sizeof_unsigned ->
  length payload = (k * sizeof ExternalMemoryNode)%nat ->
  (k < Z.to_nat (le_decode hdr))%nat ->
  let seen :=
    records k payload
    ++ repeat (last (records k payload) (value_init ExternalMemoryNode))
              (Z.to_nat (le_decode hdr) - k) in
  exists w' log,
    loadNodesFromFile w = (Returned (le_decode hdr), w', log)
    /\ failbit (input_stream w') = true
    /\ node_array w' = node_array w ++ map public_node seen
    /\ barrier_node_list w'
       = barrier_node_list w ++ flagged_ids barrier 0 seen
    /\ traffic_light_node_list w'
       = traffic_light_node_list w ++ flagged_ids traffic_lights 0 seen.
Proof.
  intros Hbuf Hgood Hexc Hfp Hhdr Hpay Hk seen.
  unfold loadNodesFromFile. unfold bind at 1.
  rewrite (read_whole _ _ _ fp (hdr ++ payload)) by assumption.
  rewrite Hfp, Nat.ltb_irrefl. unfold to_local.
  set (w1 := set_input_stream _ w).
  set (n := le_decode hdr) in *.
  assert (exists s2,
    (n <- read_unsigned ;;
     Write logINFO [Text "Importing n = "; Num n; Text " nodes "] ;;
     load_nodes_loop (Z.to_nat n) 0 (value_init ExternalMemoryNode) ;;
     ret n) w1
    = (Returned n, after_nodes w s2 0 seen,
       [(logINFO, [Text "Importing n = "; Num n; Text " nodes "])])
    /\ failbit s2 = true) as (s2 & Hrest & Hs2).
  { unfold bind at 1.
    rewrite (read_unsigned_whole w1 hdr payload); try assumption;
      try reflexivity.
    unfold bind, Write. rewrite load_nodes_loop_scan.
    subst w1. cbn [input_stream set_input_stream exceptions]. fold n.
    replace (scan_records (Z.to_nat n))
      with (scan_records (k + (Z.to_nat n - k))) by (f_equal; lia).
    rewrite (scan_records_split k _ _ _ payload []);
      [|reflexivity|cbn [rdbuf]; now rewrite app_nil_r|assumption].
    cbn [exceptions]. rewrite Hexc.
    destruct (scan_records_drained (Z.to_nat n - k) (mkIstream [] false false)
                (last (records k payload) (value_init ExternalMemoryNode))
                eq_refl (or_intror eq_refl)) as (s2 & -> & Hs2).
    exists s2. split; [destruct w; reflexivity|].
    apply Hs2. right. lia. }
  exists (after_nodes w s2 0 seen), (node_log fp n).
  split; [|unfold after_nodes; cbn; auto].
  unfold bind at 1. unfold node_log, fingerprint_ok.
  destruct (TestContractor (of_bytes fp) GetValid); cbn [negb];
    [unfold ret at 1 | unfold Write at 1]; cbv beta iota;
    rewrite Hrest; reflexivity.
Qed.

End NodeLoaderOutcomes.

(** ** More on the edge loader *)

Section EdgeLoaderOutcomes.

Context {L : Layout}.

Variable parallel_sort :
  (NodeBasedEdge -> NodeBasedEdge -> bool) ->
  list NodeBasedEdge -> list NodeBasedEdge.

(** The edge loader on a stream that cannot supply the count. *)
Lemma loadEdgesFromFile_short_header (NDEBUG : bool) (w : world) :
  failbit (input_stream w) = true
  \/ (length (rdbuf (input_stream w)) < sizeof_unsigned)%nat ->
  exists s,
    loadEdgesFromFile parallel_sort NDEBUG w
    = (if exceptions (input_stream w) then Thrown ios_failure else Undefined,
       set_input_stream s w, [])
    /\ failbit s = true.
Proof.
  intros Hcase. unfold loadEdgesFromFile. unfold bind at 1.
  unfold read_unsigned at 1. unfold bind at 1. unfold read at 1.
  assert (exists bs s,
            istream_read sizeof_unsigned (input_stream w) = (bs, s)
            /\ failbit s = true
            /\ exceptions s = exceptions (input_stream w)
            /\ (length bs < sizeof_unsigned)%nat)
    as (bs & s & -> & Hs & He & Hlen).
  { destruct (failbit (input_stream w)) eqn:Hfail.
    - rewrite istream_read_failed by assumption.
      exists [], (input_stream w). repeat split; auto. simpl.
      unfold sizeof_unsigned. lia.
    - destruct Hcase as [|Hshort]; [discriminate|].
      rewrite istream_read_short by assumption.
      eexists. eexists. repeat split; auto. }
  rewrite Hs, He. cbn [andb]. unfold to_local.
  destruct (exceptions (input_stream w)).
  - exists s. auto.
  - apply Nat.ltb_lt in Hlen. rewrite Hlen. unfold undefined.
    exists s. auto.
Qed.

Lemma store_objects_nil {T} `{Pod T} (v : list T) : store_objects [] v = v.
Proof.
  induction v as [|x v IH]; [reflexivity|].
  cbn [store_objects]. rewrite firstn_nil, skipn_nil. cbn [store_object].
  now rewrite IH.
Qed.

Lemma store_objects_front {T} `{Pod T} (k : nat) (bs : list byte) (v : list T) :
  length bs = (k * sizeof T)%nat ->
  (k <= length v)%nat ->
  store_objects bs v = records k bs ++ skipn k v.
Proof.
  unfold records.
  revert bs v. induction k as [|k IH]; intros bs v Hlen Hk.
  - destruct bs; [|discriminate]. now rewrite store_objects_nil.
  - destruct v as [|x v]; [simpl in Hk; lia|].
    simpl in Hlen, Hk. cbn [store_objects chunks map skipn app].
    rewrite store_object_whole by (rewrite length_firstn; lia).
    f_equal. apply IH; [rewrite length_skipn|]; lia.
Qed.

Lemma skipn_repeat {A} (a : A) (k m : nat) :
  skipn k (repeat a m) = repeat a (m - k).
Proof.
  revert m. induction k as [|k IH]; intros m.
  - now rewrite Nat.sub_0_r.
  - destruct m as [|m]; [reflexivity|]. simpl. apply IH.
Qed.

(** X5.  In an optimised build, on a stream that holds the [m] records it
    declares, the edge loader leaves the records in the order of the file
    in place of whatever the container held, leaves the stream in a good
    state right after the last record and does not touch the containers of
    the node loader. *)
Theorem edge_loader_keeps_file_order
  (w : world) (hdr payload rest : list byte) :
  counted_stream (sizeof NodeBasedEdge) (input_stream w) [] hdr payload rest ->
  exists w' log,
    loadEdgesFromFile parallel_sort true w = (Returned (le_decode hdr), w', log)
    /\ edge_list w' = records (Z.to_nat (le_decode hdr)) payload
    /\ (forall i, (i < Z.to_nat (le_decode hdr))%nat ->
          nth_error (edge_list w') i = Some (record_at payload i))
    /\ rdbuf (input_stream w') = rest
    /\ failbit (input_stream w') = false
    /\ node_array w' = node_array w
    /\ barrier_node_list w' = barrier_node_list w
    /\ traffic_light_node_list w' = traffic_light_node_list w.
Proof.
  intros Hstream.
  rewrite (loadEdgesFromFile_whole parallel_sort true w hdr payload rest Hstream).
  cbv zeta. eexists. eexists. split; [reflexivity|].
  cbn [edge_list set_edge_list]. split; [reflexivity|]. split.
  - intros i Hi. now apply records_nth.
  - destruct w. repeat split.
Qed.

(** X6.  When the caller has enabled exceptions on the stream, the edge
    loader of an optimised build either lets [std::ios_base::failure]
    through or returns the count of a stream that held the count and all
    the records it declares, which are then what the container holds. *)
Theorem edge_loader_with_exceptions
  (w w' : world) (r : result Z) (log : list log_line) :
  exceptions (input_stream w) = true ->
  loadEdgesFromFile parallel_sort true w = (r, w', log) ->
  r = Thrown ios_failure
  \/ exists hdr payload rest,
       counted_stream (sizeof NodeBasedEdge) (input_stream w)
                      [] hdr payload rest
       /\ r = Returned (le_decode hdr)
       /\ edge_list w' = records (Z.to_nat (le_decode hdr)) payload.
Proof.
  intros Hexc Hrun.
  destruct (failbit (input_stream w)) eqn:Hfail.
  { destruct (loadEdgesFromFile_short_header true w (or_introl Hfail))
      as (s & Hshort & _).
    rewrite Hexc in Hshort. left. congruence. }
  destruct (Nat.ltb_spec (length (rdbuf (input_stream w))) sizeof_unsigned)
    as [Hlt|Hge].
  { destruct (loadEdgesFromFile_short_header true w (or_intror Hlt))
      as (s & Hshort & _).
    rewrite Hexc in Hshort. left. congruence. }
  destruct (stream_cases 0 (sizeof NodeBasedEdge) (input_stream w) Hfail Hge)
    as (fp & hdr & tail & Hfp & Hcases).
  destruct fp; [|discriminate].
  destruct Hcases as [(payload & rest & _ & Hwhole) | Htrunc].
  - right. exists hdr, payload, rest.
    rewrite (loadEdgesFromFile_whole parallel_sort true w hdr payload rest
               Hwhole) in Hrun.
    cbv zeta in Hrun. inversion Hrun; subst. auto.
  - destruct (loadEdgesFromFile_truncated parallel_sort w hdr tail Htrunc)
      as (w1 & l1 & Hthrow & _).
    rewrite Hexc in Hthrow. left. congruence.
Qed.


(** X8.  With the default exception mask, in an optimised build, an edge
    stream that ends after [k] of the [m] records it declares makes the
    loader return [m] all the same: the first [k] elements are the records,
    the other [m - k] are what [resize] left there, elements the container
    held before at these positions or else default-constructed edges. *)
Theorem edge_loader_keeps_resized_tail
  (w : world) (hdr payload : list byte) (k : nat) :
  rdbuf (input_stream w) = hdr ++ payload ->
  failbit (input_stream w) = false ->
  exceptions (input_stream w) = false ->
  length hdr = sizeof_unsigned ->
  length payload = (k * sizeof NodeBasedEdge)%nat ->
  (k < Z.to_nat (le_decode hdr))%nat ->
  exists w' log,
    loadEdgesFromFile parallel_sort true w = (Returned (le_decode hdr), w', log)
    /\ failbit (input_stream w') = true
    /\ edge_list w'
       = records k payload
         ++ skipn k (vector_resize (Z.to_nat (le_decode hdr)) (edge_list w))
    /\ (edge_list w = [] ->
        edge_list w'
        = records k payload
          ++ repeat (value_init NodeBasedEdge) (Z.to_nat (le_decode hdr) - k)).
Proof.
  intros Hbuf Hgood Hexc Hhdr Hpay Hk.
  pose proof (le_decode_unsigned hdr Hhdr) as Hm.
  pose proof (sizeof_pos (T := NodeBasedEdge)) as Hpos.
  unfold loadEdgesFromFile. unfold bind at 1.
  rewrite (read_unsigned_whole w hdr payload) by assumption.
  unfold bind at 1. unfold modify at 1. cbv beta iota.
  unfold bind at 1. unfold Write at 1. cbv beta iota.
  unfold bind at 1. unfold read at 1.
  rewrite istream_read_short;
    [| reflexivity
     | destruct w; cbn; rewrite size_t_mul_small by assumption;
       rewrite Hpay; nia].
  cbn [failbit exceptions andb input_stream set_input_stream set_edge_list
       edge_list rdbuf].
  rewrite Hexc.
  unfold bind, get, BOOST_ASSERT, ret, Write.
  eexists. eexists. split; [reflexivity|]. split; [reflexivity|].
  cbn [edge_list set_edge_list].
  assert (store_objects payload
            (vector_resize (Z.to_nat (le_decode hdr)) (edge_list w))
          = records k payload
            ++ skipn k (vector_resize (Z.to_nat (le_decode hdr)) (edge_list w)))
    as Hstore.
  { apply store_objects_front; [assumption|].
    rewrite vector_resize_length. lia. }
  destruct w; cbn [edge_list input_stream rdbuf] in *.
  split; [exact Hstore|].
  intros ->. rewrite Hstore. f_equal.
  unfold vector_resize. rewrite firstn_nil. cbn [app length].
  rewrite Nat.sub_0_r. apply skipn_repeat.
Qed.

(** X9.  A stream that declares no edge: a build with assertions aborts
    at [BOOST_ASSERT(edge_list.size() > 0)], after it has emptied the
    container; an optimised build returns 0 and leaves the container
    empty. *)
Theorem edge_loader_without_edges
  (w : world) (hdr rest : list byte) :
  counted_stream (sizeof NodeBasedEdge) (input_stream w) [] hdr [] rest ->
  le_decode hdr = 0 ->
  (exists w' log,
     loadEdgesFromFile parallel_sort false w
     = (Aborted "edge_list.size() > 0", w', log)
     /\ edge_list w' = [])
  /\ (exists w' log,
        loadEdgesFromFile parallel_sort true w = (Returned 0, w', log)
        /\ edge_list w' = []).
Proof.
  intros Hstream Hzero. split.
  - rewrite (loadEdgesFromFile_whole parallel_sort false w hdr [] rest Hstream).
    cbv zeta. rewrite Hzero. unfold records. cbn [Z.to_nat chunks map].
    eexists. eexists. split; reflexivity.
  - rewrite (loadEdgesFromFile_whole parallel_sort true w hdr [] rest Hstream).
    cbv zeta. rewrite Hzero. unfold records. cbn [Z.to_nat chunks map].
    eexists. eexists. split; reflexivity.
Qed.

(** *** The order the validation leaves *)

Lemma edge_less_irrefl (a : NodeBasedEdge) : edge_less a a = false.
Proof.
  unfold edge_less. rewrite !Z.ltb_irrefl. now rewrite andb_false_r.
Qed.

Lemma edge_less_false (a b : NodeBasedEdge) :
  edge_less b a = false
  <-> source a < source b
      \/ (source a = source b /\ target a <= target b).
Proof.
  unfold edge_less.
  destruct (Z.ltb_spec (source b) (source a));
    destruct (Z.eqb_spec (source b) (source a));
    destruct (Z.ltb_spec (target b) (target a)); simpl;
    split; intros Hx; try discriminate; try reflexivity; lia.
Qed.

Lemma edge_not_less_trans (a b c : NodeBasedEdge) :
  edge_less b a = false -> edge_less c b = false -> edge_less c a = false.
Proof.
  rewrite !edge_less_false. lia.
Qed.

Lemma sorted_head_least (h : NodeBasedEdge) (t : list NodeBasedEdge) :
  Sorted (fun a b => edge_less b a = false) (h :: t) ->
  forall y, In y (h :: t) -> edge_less y h = false.
Proof.
  intros Hs y Hy. apply Sorted_StronglySorted in Hs.
  - inversion Hs as [|? ? _ Hall]; subst. destruct Hy as [<-|Hy].
    + apply edge_less_irrefl.
    + rewrite Forall_forall in Hall. now apply Hall.
  - intros a b c. apply edge_not_less_trans.
Qed.

Hypothesis parallel_sort_sorts : sorts edge_less (parallel_sort edge_less).

(** X10.  When a build that validates returns from a stream that holds
    the [m] records it declares, it returns [m] and the container is the
    records rearranged in strictly increasing order of (source, target):
    no two edges of the container share the pair. *)
Theorem edge_loader_leaves_sorted_edges
  (w w' : world) (hdr payload rest : list byte) (n : Z)
  (log : list log_line) :
  counted_stream (sizeof NodeBasedEdge) (input_stream w) [] hdr payload rest ->
  loadEdgesFromFile parallel_sort false w = (Returned n, w', log) ->
  n = le_decode hdr
  /\ Permutation (records (Z.to_nat (le_decode hdr)) payload) (edge_list w')
  /\ StronglySorted (fun a b => key_lt (edge_key a) (edge_key b))
                    (edge_list w')
  /\ NoDup (map edge_key (edge_list w')).
Proof.
  intros Hstream Hrun.
  rewrite (loadEdgesFromFile_whole parallel_sort false w hdr payload rest
             Hstream) in Hrun.
  cbv zeta in Hrun.
  set (edges := records (Z.to_nat (le_decode hdr)) payload) in *.
  destruct (parallel_sort_sorts edges) as [Hperm Hsorted].
  destruct edges as [|e es] eqn:Hedges; [discriminate|].
  destruct (validation_outcome (parallel_sort edge_less (e :: es)))
    as [msg|] eqn:Hv; [discriminate|].
  inversion Hrun; subst. cbn [edge_list set_edge_list].
  assert (StronglySorted (fun a b => key_lt (edge_key a) (edge_key b))
                         (parallel_sort edge_less (e :: es))) as Hstrict.
  { apply Sorted_StronglySorted.
    - intros a b c. apply key_lt_trans.
    - destruct (parallel_sort edge_less (e :: es)) as [|e0 l];
        [constructor|]. now apply first_violation_sorted. }
  repeat split; try assumption. now apply increasing_keys_NoDup.
Qed.

(** X11.  With the validation enabled, an edge that fails one of the four
    checks on a single edge (weight, direction, travel mode, self-loop)
    stops the load with a failed assertion as soon as some edge of the list
    comes before it in the order of the sort. *)
Theorem edge_loader_rejects_later_violation
  (w : world) (hdr payload rest : list byte) (i j : nat) :
  counted_stream (sizeof NodeBasedEdge) (input_stream w) [] hdr payload rest ->
  (i < Z.to_nat (le_decode hdr))%nat ->
  (j < Z.to_nat (le_decode hdr))%nat ->
  edge_ok (record_at payload i) = false ->
  edge_less (record_at payload j) (record_at payload i) = true ->
  exists msg w' log,
    loadEdgesFromFile parallel_sort false w = (Aborted msg, w', log).
Proof.
  intros Hstream Hi Hj Hbad Hless.
  rewrite (loadEdgesFromFile_whole parallel_sort false w hdr payload rest
             Hstream).
  cbv zeta.
  set (edges := records (Z.to_nat (le_decode hdr)) payload).
  assert (In (record_at payload i) edges) as Hini
    by (eapply nth_error_In; apply records_nth; exact Hi).
  assert (In (record_at payload j) edges) as Hinj
    by (eapply nth_error_In; apply records_nth; exact Hj).
  destruct (parallel_sort_sorts edges) as [Hperm Hsorted].
  destruct edges as [|e es] eqn:Hedges; [contradiction|].
  destruct (validation_outcome (parallel_sort edge_less (e :: es)))
    as [msg|] eqn:Hv; [eexists; eexists; eexists; reflexivity|].
  exfalso.
  apply (Permutation_in _ Hperm) in Hini.
  apply (Permutation_in _ Hperm) in Hinj.
  destruct (parallel_sort edge_less (e :: es)) as [|h t]; [contradiction|].
  cbn [validation_outcome] in Hv.
  destruct Hini as [Hhead | Htail].
  - pose proof (sorted_head_least h t Hsorted _ Hinj) as Hleast.
    rewrite Hhead in Hleast. congruence.
  - apply (In_nth _ _ (value_init NodeBasedEdge)) in Htail
      as (p & Hp & Hnth).
    rewrite first_violation_None in Hv.
    destruct (Hv p Hp) as [Hok _]. rewrite Hnth in Hok. congruence.
Qed.

End EdgeLoaderOutcomes.

(** ** The two stream loaders one after the other *)

Section LoadersCompose.

Context {L : Layout}.

Variable parallel_sort :
  (NodeBasedEdge -> NodeBasedEdge -> bool) ->
  list NodeBasedEdge -> list NodeBasedEdge.

(** X12.  On one stream that holds the fingerprint, the node block and
    the edge block, the node loader followed by the edge loader of an
    optimised build returns both counts: the node loader stops right
    before the edge count, the nodes are added to the node container, the
    edges are the edge container, and the stream is left in a good state
    at the first byte after the edge block. *)
Theorem node_then_edge_loader
  (w : world) (fp hdr_n nodes hdr_m edges rest : list byte) :
  rdbuf (input_stream w) = fp ++ hdr_n ++ nodes ++ hdr_m ++ edges ++ rest ->
  failbit (input_stream w) = false ->
  length fp = sizeof FingerPrint ->
  length hdr_n = sizeof_unsigned ->
  length nodes
  = (Z.to_nat (le_decode hdr_n) * sizeof ExternalMemoryNode)%nat ->
  length hdr_m = sizeof_unsigned ->
  length edges = (Z.to_nat (le_decode hdr_m) * sizeof NodeBasedEdge)%nat ->
  exists w' log,
    (n <- loadNodesFromFile ;;
     m <- loadEdgesFromFile parallel_sort true ;;
     ret (n, m)) w
    = (Returned (le_decode hdr_n, le_decode hdr_m), w', log)
    /\ node_array w'
       = node_array w
         ++ map public_node (records (Z.to_nat (le_decode hdr_n)) nodes)
    /\ edge_list w' = records (Z.to_nat (le_decode hdr_m)) edges
    /\ rdbuf (input_stream w') = rest
    /\ failbit (input_stream w') = false.
Proof.
  intros Hbuf Hgood Hfp Hhn Hnodes Hhm Hedges.
  unfold bind at 1.
  rewrite (loadNodesFromFile_whole w fp hdr_n nodes (hdr_m ++ edges ++ rest));
    [|unfold counted_stream; auto|assumption].
  unfold bind at 1.
  rewrite (loadEdgesFromFile_whole parallel_sort true _ hdr_m edges rest);
    [|unfold counted_stream, after_nodes; cbn; auto].
  cbv zeta. unfold ret. eexists. eexists. split; [reflexivity|].
  unfold after_nodes. cbn. auto.
Qed.

End LoadersCompose.

(** ** More on the restriction loader *)

Section RestrictionLoaderOutcomes.

Context {L : Layout}.

(** The reader after the fingerprint and the count have been read. *)
Lemma restriction_header_read
  (w : world) (filename : string) (fp hdr tail : list byte)
  (A : Type) (k : Z * FileReader -> M A) :
  filesystem w filename = Some (fp ++ hdr ++ tail) ->
  length fp = sizeof FingerPrint ->
  fingerprint_ok fp = true ->
  length hdr = sizeof_unsigned ->
  (file <- FileReader_open filename VerifyFingerprint ;;
   p <- ReadElementCount32 file ;;
   k p) w
  = match k (le_decode hdr, mkFileReader filename tail) w with
    | (r, w', l) => (r, w', l)
    end.
Proof.
  intros Hfile Hfp Hok Hhdr.
  unfold bind at 1.
  unfold FileReader_open, bind at 1, get at 1. cbv beta iota.
  rewrite Hfile, length_app, Hfp.
  destruct (Nat.ltb_spec (sizeof FingerPrint + length (hdr ++ tail))
                         (sizeof FingerPrint)); [lia|].
  rewrite firstn_app, skipn_app, <- Hfp, Nat.sub_diag, firstn_all, skipn_all.
  cbn [firstn skipn app]. rewrite app_nil_r.
  unfold fingerprint_ok in Hok. rewrite Hok. unfold ret at 1. cbv beta iota.
  unfold bind at 1, ReadElementCount32 at 1. cbn [reader_bytes reader_filename].
  rewrite length_app, Hhdr.
  destruct (Nat.ltb_spec (sizeof_unsigned + length tail) sizeof_unsigned);
    [lia|].
  rewrite firstn_app, skipn_app, <- Hhdr, Nat.sub_diag, firstn_all, skipn_all.
  cbn [firstn skipn app]. rewrite app_nil_r.
  unfold ret at 1. cbv beta iota.
  destruct (k _ w) as [[r w'] l]. destruct r; reflexivity.
Qed.

(** X13.  On a file that holds a passing fingerprint, a count and the
    records the count declares, the restriction loader returns the count
    and leaves these records, in the order of the file, in place of whatever
    the list held; bytes after the last record are not looked at, and
    nothing else of the caller changes.  A count of zero empties the
    list. *)
Theorem restriction_loader_loads_records
  (w : world) (filename : string) (fp hdr payload rest : list byte) :
  filesystem w filename = Some (fp ++ hdr ++ payload ++ rest) ->
  length fp = sizeof FingerPrint ->
  fingerprint_ok fp = true ->
  length hdr = sizeof_unsigned ->
  length payload = (Z.to_nat (le_decode hdr) * sizeof TurnRestriction)%nat ->
  loadRestrictionsFromFile filename w
  = (Returned (le_decode hdr),
     set_restriction_list (records (Z.to_nat (le_decode hdr)) payload) w,
     []).
Proof.
  intros Hfile Hfp Hok Hhdr Hpay.
  pose proof (le_decode_unsigned hdr Hhdr) as Hm.
  pose proof (sizeof_bound (T := TurnRestriction)) as Hs.
  unfold loadRestrictionsFromFile.
  rewrite (restriction_header_read w filename fp hdr (payload ++ rest) _
             (fun p =>
                match p with
                | (number_of_usable_restrictions, file) =>
                    modify (fun w =>
                      set_restriction_list
                        (vector_resize (Z.to_nat number_of_usable_restrictions)
                                       (restriction_list w)) w) ;;
                    (if 0 <? number_of_usable_restrictions
                     then
                       '(bs, _) <- ReadInto file
                                     (size_t_mul number_of_usable_restrictions
                                        (Z.of_nat (sizeof TurnRestriction))) ;;
                       modify (fun w =>
                         set_restriction_list
                           (store_objects bs (restriction_list w)) w)
                     else ret tt) ;;
                    ret number_of_usable_restrictions
                end)) by assumption.
  unfold bind at 1, modify at 1. cbv beta iota.
  unfold bind at 1.
  destruct (Z.ltb_spec 0 (le_decode hdr)) as [Hpos|Hzero].
  - unfold bind at 1, ReadInto. cbn [reader_bytes reader_filename].
    assert (size_t_mul (le_decode hdr) (Z.of_nat (sizeof TurnRestriction))
            = Z.of_nat (length payload)) as Hsize.
    { unfold size_t_mul. rewrite Z.mod_small by nia.
      rewrite Hpay, Nat2Z.inj_mul, Z2Nat.id by lia. reflexivity. }
    rewrite Hsize, Nat2Z.id.
    destruct (Z.ltb_spec (Z.of_nat (length (payload ++ rest)))
                         (Z.of_nat (length payload)))
      as [Habs|_]; [rewrite length_app in Habs; lia|].
    rewrite firstn_app, Nat.sub_diag, firstn_all. cbn [firstn].
    rewrite app_nil_r.
    unfold ret, modify. cbn [app restriction_list set_restriction_list].
    rewrite store_objects_whole by (now rewrite vector_resize_length).
    rewrite vector_resize_length. destruct w. reflexivity.
  - assert (le_decode hdr = 0) as Hz by lia.
    unfold ret. cbn [app]. rewrite Hz. cbn [Z.to_nat].
    unfold vector_resize, records. destruct w. reflexivity.
Qed.


End RestrictionLoaderOutcomes.

(** ** The further statements on the sample platform *)

Module SampleOutcomes.

Import Sample.

Lemma node_loader_with_exceptions_witness :
  let w := fresh (mkIstream (u32 magic ++ u32 2 ++ node_bytes 10 20 7 true false)
                            false true) in
  let run := loadNodesFromFile w in
  (fst (fst run) = Thrown ios_failure
   \/ exists fp hdr payload rest,
        counted_stream (sizeof ExternalMemoryNode) (input_stream w)
                       fp hdr payload rest
        /\ length fp = sizeof FingerPrint
        /\ fst (fst run) = Returned (le_decode hdr)
        /\ node_array (snd (fst run))
           = node_array w
             ++ map public_node (records (Z.to_nat (le_decode hdr)) payload))
  /\ fst (fst run) = Thrown ios_failure.
Proof.
  intros w run. split; [|reflexivity].
  apply (node_loader_with_exceptions w (snd (fst run)) (fst (fst run)) (snd run)).
  - reflexivity.
  - reflexivity.
Defined.

Lemma node_loader_without_header_witness :
  let w := fresh (stream_of (u32 magic)) in
  exists w' log,
    loadNodesFromFile w = (Undefined, w', log)
    /\ failbit (input_stream w') = true
    /\ node_array w' = node_array w
    /\ barrier_node_list w' = barrier_node_list w
    /\ traffic_light_node_list w' = traffic_light_node_list w.
Proof.
  intros w. apply (node_loader_without_header w).
  - reflexivity.
  - right. vm_compute. lia.
Defined.

Lemma node_loader_repeats_last_record_witness :
  let payload := node_bytes 10 20 7 true false in
  let w := fresh (stream_of (u32 magic ++ u32 3 ++ payload)) in
  let seen :=
    records 1 payload
    ++ repeat (last (records 1 payload) (value_init ExternalMemoryNode))
              (Z.to_nat (le_decode (u32 3)) - 1) in
  exists w' log,
    loadNodesFromFile w = (Returned (le_decode (u32 3)), w', log)
    /\ failbit (input_stream w') = true
    /\ node_array w' = node_array w ++ map public_node seen
    /\ barrier_node_list w'
       = barrier_node_list w ++ flagged_ids barrier 0 seen
    /\ traffic_light_node_list w'
       = traffic_light_node_list w ++ flagged_ids traffic_lights 0 seen.
Proof.
  intros payload w seen.
  apply (node_loader_repeats_last_record w (u32 magic) (u32 3) payload 1).
  - reflexivity.
  - reflexivity.
  - reflexivity.
  - reflexivity.
  - reflexivity.
  - reflexivity.
  - vm_compute. lia.
Defined.

Lemma edge_loader_keeps_file_order_witness :
  let payload := good_edge 1 0 ++ good_edge 0 1 in
  let w := fresh (stream_of (u32 2 ++ payload)) in
  exists w' log,
    loadEdgesFromFile (sort) true w = (Returned (le_decode (u32 2)), w', log)
    /\ edge_list w' = records (Z.to_nat (le_decode (u32 2))) payload
    /\ (forall i, (i < Z.to_nat (le_decode (u32 2)))%nat ->
          nth_error (edge_list w') i = Some (record_at payload i))
    /\ rdbuf (input_stream w') = []
    /\ failbit (input_stream w') = false
    /\ node_array w' = node_array w
    /\ barrier_node_list w' = barrier_node_list w
    /\ traffic_light_node_list w' = traffic_light_node_list w.
Proof.
  intros payload w.
  apply (edge_loader_keeps_file_order (sort) w (u32 2) payload []).
  unfold counted_stream. repeat split; reflexivity.
Defined.

Lemma edge_loader_with_exceptions_witness :
  let w := fresh (mkIstream (u32 2 ++ good_edge 0 1) false true) in
  let run := loadEdgesFromFile (sort) true w in
  (fst (fst run) = Thrown ios_failure
   \/ exists hdr payload rest,
        counted_stream (sizeof NodeBasedEdge) (input_stream w)
                       [] hdr payload rest
        /\ fst (fst run) = Returned (le_decode hdr)
        /\ edge_list (snd (fst run))
           = records (Z.to_nat (le_decode hdr)) payload)
  /\ fst (fst run) = Thrown ios_failure.
Proof.
  intros w run. split; [|reflexivity].
  apply (edge_loader_with_exceptions
           (sort) w (snd (fst run)) (fst (fst run)) (snd run)).
  - reflexivity.
  - reflexivity.
Defined.


Lemma edge_loader_keeps_resized_tail_witness :
  let payload := good_edge 0 1 in
  let w := fresh (stream_of (u32 2 ++ payload)) in
  exists w' log,
    loadEdgesFromFile (sort) true w = (Returned (le_decode (u32 2)), w', log)
    /\ failbit (input_stream w') = true
    /\ edge_list w'
       = records 1 payload
         ++ skipn 1 (vector_resize (Z.to_nat (le_decode (u32 2))) (edge_list w))
    /\ (edge_list w = [] ->
        edge_list w'
        = records 1 payload
          ++ repeat (value_init NodeBasedEdge)
                    (Z.to_nat (le_decode (u32 2)) - 1)).
Proof.
  intros payload w.
  apply (edge_loader_keeps_resized_tail (sort) w (u32 2) payload 1).
  - reflexivity.
  - reflexivity.
  - reflexivity.
  - reflexivity.
  - reflexivity.
  - vm_compute. lia.
Defined.

Lemma edge_loader_without_edges_witness :
  let w := fresh (stream_of (u32 0 ++ u32 7)) in
  (exists w' log,
     loadEdgesFromFile (sort) false w
     = (Aborted "edge_list.size() > 0", w', log)
     /\ edge_list w' = [])
  /\ (exists w' log,
        loadEdgesFromFile (sort) true w = (Returned 0, w', log)
        /\ edge_list w' = []).
Proof.
  intros w. apply (edge_loader_without_edges (sort) w (u32 0) (u32 7)).
  - unfold counted_stream. repeat split; reflexivity.
  - reflexivity.
Defined.

Lemma edge_loader_leaves_sorted_edges_witness :
  let payload := good_edge 1 0 ++ good_edge 0 1 in
  let w := fresh (stream_of (u32 2 ++ payload)) in
  let run := loadEdgesFromFile (sort) false w in
  let w' := snd (fst run) in
  2 = le_decode (u32 2)
  /\ Permutation (records (Z.to_nat (le_decode (u32 2))) payload) (edge_list w')
  /\ StronglySorted (fun a b => key_lt (edge_key a) (edge_key b))
                    (edge_list w')
  /\ NoDup (map edge_key (edge_list w')).
Proof.
  intros payload w run w'.
  apply (edge_loader_leaves_sorted_edges
           (sort) SampleRuns.sort_sorts w w' (u32 2) payload [] 2 (snd run)).
  - unfold counted_stream. repeat split; reflexivity.
  - reflexivity.
Defined.

Lemma edge_loader_rejects_later_violation_witness :
  let payload := good_edge 0 1 ++ good_edge 1 1 in
  let w := fresh (stream_of (u32 2 ++ payload)) in
  exists msg w' log,
    loadEdgesFromFile (sort) false w = (Aborted msg, w', log).
Proof.
  intros payload w.
  apply (edge_loader_rejects_later_violation
           (sort) SampleRuns.sort_sorts w (u32 2) payload [] 1 0).
  - unfold counted_stream. repeat split; reflexivity.
  - vm_compute. lia.
  - vm_compute. lia.
  - reflexivity.
  - reflexivity.
Defined.

Lemma node_then_edge_loader_witness :
  let w := fresh (stream_of (u32 magic ++ u32 2 ++ two_nodes
                             ++ u32 1 ++ good_edge 0 1 ++ [])) in
  exists w' log,
    (n <- loadNodesFromFile ;;
     m <- loadEdgesFromFile (sort) true ;;
     ret (n, m)) w
    = (Returned (le_decode (u32 2), le_decode (u32 1)), w', log)
    /\ node_array w'
       = node_array w
         ++ map public_node (records (Z.to_nat (le_decode (u32 2))) two_nodes)
    /\ edge_list w' = records (Z.to_nat (le_decode (u32 1))) (good_edge 0 1)
    /\ rdbuf (input_stream w') = []
    /\ failbit (input_stream w') = false.
Proof.
  intros w.
  apply (node_then_edge_loader
           (sort) w (u32 magic) (u32 2) two_nodes (u32 1) (good_edge 0 1) []);
    reflexivity.
Defined.

Lemma restriction_loader_loads_records_witness :
  let payload := u32 1 ++ u32 2 ++ u32 3 in
  let w := with_file "map.osrm.restrictions" (u32 magic ++ u32 1 ++ payload ++ []) in
  loadRestrictionsFromFile "map.osrm.restrictions" w
  = (Returned (le_decode (u32 1)),
     set_restriction_list (records (Z.to_nat (le_decode (u32 1))) payload) w,
     []).
Proof.
  intros payload w.
  apply (restriction_loader_loads_records
           w "map.osrm.restrictions" (u32 magic) (u32 1) payload []);
    reflexivity.
Defined.


End SampleOutcomes.
